(** * Breach checker of password-utils (src/analyzer/breach.ts)

    A shallow embedding of the k-anonymity breach checker: the digest
    (SHA-1, upper-case hex, split after five characters), the in-memory
    LRU index (a Map plus a doubly linked list of nodes), the IndexedDB
    store with its 24 hour expiry, the rate limited fetch with retries,
    and the orchestrating [checkPassword] / [clearCache] methods.

    JavaScript strings are embedded as [string]; a password is given by
    its UTF-8 bytes (what [sha1] hashes), numbers that hold integers
    (timestamps, delays, status codes) as [Z], object references as
    locations into an explicit heap. *)

From Stdlib Require Import ZArith String Ascii List Lia.
From stdpp Require Import base option list gmap strings pretty sorting.

Local Open Scope string_scope.
Local Open Scope Z_scope.
Local Open Scope list_scope.

(** ** Strings as lists of characters *)

Module Str.

Definition chars (s : string) : list ascii := list_ascii_of_string s.
Definition ofChars (l : list ascii) : string := string_of_list_ascii l.

(** [s.substring(a, b)] for [a <= b]. *)
Definition substring (a b : nat) (s : string) : string :=
  ofChars (take (b - a)%nat (drop a (chars s))).

(** [s.substring(a)]: everything from index [a] on. *)
Definition substringFrom (a : nat) (s : string) : string :=
  ofChars (drop a (chars s)).

(** [needle] occurs in [hay] as a contiguous run of characters. *)
Definition occursIn (needle hay : string) : Prop :=
  exists pre post : list ascii, chars hay = pre ++ chars needle ++ post.

Definition upperChar (c : ascii) : ascii :=
  let n := nat_of_ascii c in
  if ((97 <=? n)%nat && (n <=? 122)%nat)%bool then ascii_of_nat (n - 32) else c.

(** [s.toUpperCase()] on the ASCII range. *)
Definition toUpperCase (s : string) : string :=
  ofChars (map upperChar (chars s)).

Definition isUpperHex (c : ascii) : bool :=
  let n := nat_of_ascii c in
  (((48 <=? n)%nat && (n <=? 57)%nat) || ((65 <=? n)%nat && (n <=? 70)%nat))%bool.

End Str.

(** ** SHA-1 (FIPS 180-4), the [sha1] of [@noble/hashes/sha1] *)

Module Sha1.

Definition mask32 : Z := 4294967295.

Definition add32 (a b : Z) : Z := Z.land (a + b) mask32.

Definition rotl32 (n x : Z) : Z :=
  Z.land (Z.lor (Z.shiftl x n) (Z.shiftr x (32 - n))) mask32.

Definition not32 (x : Z) : Z := Z.lxor x mask32.

(** Big-endian encoding of a length in [n] bytes. *)
Fixpoint beBytes (n : nat) (x : Z) : list Z :=
  match n with
  | O => []
  | S n' => Z.land (Z.shiftr x (8 * Z.of_nat n')) 255 :: beBytes n' x
  end.

(** Padding: a 1 bit, zeros up to 56 mod 64, then the bit length on 64 bits. *)
Definition pad (msg : list Z) : list Z :=
  let len := Z.of_nat (length msg) in
  let zeros := Z.to_nat ((55 - len) mod 64) in
  msg ++ 128 :: repeat 0 zeros ++ beBytes 8 (8 * len).

Fixpoint beWord (bs : list Z) : Z :=
  match bs with
  | [] => 0
  | b :: rest => Z.lor (Z.shiftl b (8 * Z.of_nat (length rest))) (beWord rest)
  end.

(** The sixteen words of a 64-byte block. *)
Fixpoint wordsOf (n : nat) (bs : list Z) : list Z :=
  match n with
  | O => []
  | S n' => beWord (take 4 bs) :: wordsOf n' (drop 4 bs)
  end.

(** Message schedule, kept newest first: [w(t) = rotl 1 (w(t-3) xor w(t-8)
    xor w(t-14) xor w(t-16))]. *)
Fixpoint expand (n : nat) (rev_w : list Z) : list Z :=
  match n with
  | O => rev_w
  | S n' =>
      let g i := nth i rev_w 0 in
      let w := rotl32 1 (Z.lxor (Z.lxor (g 2%nat) (g 7%nat)) (Z.lxor (g 13%nat) (g 15%nat))) in
      expand n' (w :: rev_w)
  end.

Definition schedule (block : list Z) : list Z :=
  rev (expand 64 (rev (wordsOf 16 block))).

Record state := State { h0 : Z; h1 : Z; h2 : Z; h3 : Z; h4 : Z }.

Definition init : state :=
  State 1732584193 4023233417 2562383102 271733878 3285377520.

Definition f (t : nat) (b c d : Z) : Z :=
  if (t <? 20)%nat then Z.lor (Z.land b c) (Z.land (not32 b) d)
  else if (t <? 40)%nat then Z.lxor (Z.lxor b c) d
  else if (t <? 60)%nat then Z.lor (Z.lor (Z.land b c) (Z.land b d)) (Z.land c d)
  else Z.lxor (Z.lxor b c) d.

Definition k (t : nat) : Z :=
  if (t <? 20)%nat then 1518500249
  else if (t <? 40)%nat then 1859775393
  else if (t <? 60)%nat then 2400959708
  else 3395469782.

Definition round (st : state) (tw : nat * Z) : state :=
  let '(t, w) := tw in
  let 'State a b c d e := st in
  let tmp := add32 (add32 (add32 (add32 (rotl32 5 a) (f t b c d)) e) (k t)) w in
  State tmp a (rotl32 30 b) c d.

Definition compress (st : state) (block : list Z) : state :=
  let ws := schedule block in
  let 'State a b c d e := fold_left round (combine (seq 0 80) ws) st in
  State (add32 (h0 st) a) (add32 (h1 st) b) (add32 (h2 st) c)
        (add32 (h3 st) d) (add32 (h4 st) e).

Fixpoint blocks (n : nat) (bs : list Z) (st : state) : state :=
  match n with
  | O => st
  | S n' => blocks n' (drop 64 bs) (compress st (take 64 bs))
  end.

Definition wordBytes (w : Z) : list Z :=
  [ Z.land (Z.shiftr w 24) 255; Z.land (Z.shiftr w 16) 255;
    Z.land (Z.shiftr w 8) 255; Z.land w 255 ].

Definition stateBytes (st : state) : list Z :=
  wordBytes (h0 st) ++ wordBytes (h1 st) ++ wordBytes (h2 st)
  ++ wordBytes (h3 st) ++ wordBytes (h4 st).

(** The 20-byte digest of a byte sequence. *)
Definition sha1Bytes (msg : list Z) : list Z :=
  let padded := pad msg in
  stateBytes (blocks (length padded / 64)%nat padded init).

(** [sha1(password)]: the digest of the password's UTF-8 bytes. *)
Definition sha1 (password : string) : list Z :=
  sha1Bytes (map (fun c => Z.of_nat (nat_of_ascii c)) (Str.chars password)).

End Sha1.

(** ** [bytesToHex] of [@noble/hashes/utils] *)

Definition hexes : list ascii := Str.chars "0123456789abcdef".

Definition hexDigit (n : Z) : ascii := nth (Z.to_nat n) hexes "0"%char.

Definition byteHex (b : Z) : list ascii :=
  [hexDigit (Z.shiftr b 4); hexDigit (Z.land b 15)].

Definition bytesToHex (bs : list Z) : string :=
  Str.ofChars (flat_map byteHex bs).

(** ** The digest of [checkPassword] (breach.ts 383-385) *)

Definition passwordHash (password : string) : string :=
  Str.toUpperCase (bytesToHex (Sha1.sha1 password)).

Definition hashPrefix (password : string) : string :=
  Str.substring 0 5 (passwordHash password).

Definition hashSuffix (password : string) : string :=
  Str.substringFrom 5 (passwordHash password).


(** ** The in-memory LRU index (class LRUCache, breach.ts 77-192)

    Node objects live in an explicit heap and are named by references;
    [fresh] is the next unused reference ([new] objects never alias old
    ones). The [Map] of the class is [cache]. *)

Module LRU.

Abbreviation loc := nat (only parsing).

Record LRUNode := Node { key : string; prev : option loc; next : option loc }.

Record LRUCache := Cache {
  heap : gmap loc LRUNode;
  fresh : loc;
  cache : gmap string loc;
  head : option loc;
  tail : option loc;
  maxSize : nat
}.

(** [new LRUCache(maxSize)] *)
Definition new (maxSize : nat) : LRUCache := Cache ∅ 0%nat ∅ None None maxSize.

Definition setPrev (p : option loc) (nd : LRUNode) : LRUNode :=
  Node (key nd) p (next nd).

Definition setNext (n : option loc) (nd : LRUNode) : LRUNode :=
  Node (key nd) (prev nd) n.

(** Reading [o.prev] and [o.next] through a reference. *)
Definition prevOf (h : gmap loc LRUNode) (l : loc) : option loc := h !! l ≫= prev.
Definition nextOf (h : gmap loc LRUNode) (l : loc) : option loc := h !! l ≫= next.

(** [if (o) { o.field = v }] for a nullable reference [o]. *)
Definition store (upd : LRUNode → LRUNode) (o : option loc)
    (h : gmap loc LRUNode) : gmap loc LRUNode :=
  match o with
  | Some l => alter upd l h
  | None => h
  end.

(** [moveToFront(node)] (117-138) *)
Definition moveToFront (node : loc) (c : LRUCache) : LRUCache :=
  if decide (head c = Some node) then c
  else
    let h1 := store (setNext (nextOf (heap c) node)) (prevOf (heap c) node) (heap c) in
    let h2 := store (setPrev (prevOf h1 node)) (nextOf h1 node) h1 in
    let tail' := if decide (tail c = Some node) then prevOf h2 node else tail c in
    let h3 := alter (fun nd => setNext (head c) (setPrev None nd)) node h2 in
    let h4 := store (setPrev (Some node)) (head c) h3 in
    Cache h4 (fresh c) (cache c) (Some node) tail' (maxSize c).

(** [evictLRU()] (143-158); the second component is the key handed to
    [removeFromDB], if any. *)
Definition evictLRU (c : LRUCache) : LRUCache * option string :=
  match tail c with
  | None => (c, None)
  | Some evicted =>
      match heap c !! evicted with
      | None => (c, None)
      | Some nd =>
          let cache' := delete (key nd) (cache c) in
          match prev nd with
          | Some t =>
              (Cache (alter (setNext None) t (heap c)) (fresh c) cache'
                     (head c) (Some t) (maxSize c), Some (key nd))
          | None =>
              (Cache (heap c) (fresh c) cache' None None (maxSize c),
               Some (key nd))
          end
      end
  end.

(** [access(key)] (90-112) *)
Definition access (k : string) (c : LRUCache) : LRUCache * option string :=
  match cache c !! k with
  | None =>
      let n := fresh c in
      let h1 := <[n := Node k None (head c)]> (heap c) in
      let h2 := store (setPrev (Some n)) (head c) h1 in
      let tail' := match tail c with None => Some n | Some t => Some t end in
      let c' := Cache h2 (S n) (<[k := n]> (cache c)) (Some n) tail' (maxSize c) in
      if decide (maxSize c' < size (cache c'))%nat then evictLRU c' else (c', None)
  | Some node => (moveToFront node c, None)
  end.

(** Nodes met when following [next] from a reference. *)
Fixpoint walk (fuel : nat) (h : gmap loc LRUNode) (cur : option loc) : list loc :=
  match fuel, cur with
  | S fuel', Some l => l :: walk fuel' h (nextOf h l)
  | _, _ => []
  end.

(** The nodes reachable from [head]; no walk without a cycle is longer
    than the number of allocated nodes. *)
Definition reachable (c : LRUCache) : list loc :=
  walk (size (heap c)) (heap c) (head c).

Definition keyAt (h : gmap loc LRUNode) (l : loc) : option string := key <$> h !! l.

Definition reachableKeys (c : LRUCache) : list string :=
  omap (keyAt (heap c)) (reachable c).

(** A sequence of [access] calls, oldest first. *)
Definition run (hist : list string) (c : LRUCache) : LRUCache :=
  foldl (fun c k => (access k c).1) c hist.

End LRU.

(** ** Results, options and durable records (breach.ts 20-53) *)

Record BreachResult := Result {
  checked : bool;
  breached : option bool;     (* [None] is [null] *)
  count : option Z;           (* optional fields: [None] is "not set" *)
  offline : option bool;
  cached : option bool
}.

Record BreachCheckOptions := Options {
  allowNetwork : option bool;
  timeout : option Z
}.

Record CacheEntry := Entry {
  entryPrefix : string;       (* the [prefix] field, the store's key path *)
  hashes : list string;
  timestamp : Z
}.

(** ** Constants (breach.ts 65-72) *)

Definition HIBP_API_URL : string := "https://api.pwnedpasswords.com/range/".
Definition CACHE_TTL_MS : Z := 24 * 60 * 60 * 1000.
Definition MAX_CACHE_SIZE : nat := 1000.
Definition RATE_LIMIT_MS : Z := 1000.
Definition MAX_RETRIES : nat := 3.
Definition INITIAL_BACKOFF_MS : Z := 1000.

(** ** The host environment and the checker's state *)

Record JsError := Err { name : string; message : string }.

(** What the network answers to one request. *)
Inductive NetResult :=
| NetReject (e : JsError)                   (* the fetch promise rejects *)
| NetRespond (status : Z) (body : string).  (* a response and its text *)

Record NetReply := Reply { latency : Z; outcome : NetResult }.

(** Effects visible outside the checker, in the order they happen. *)
Inductive Event :=
| EvOpenDB (ok : bool)
| EvGet (k : string)
| EvPut (k : string)
| EvDelete (k : string)
| EvClear
| EvFetch (url : string) (headers : list (string * string))
| EvSleep (ms : Z)
| EvLog (what : string).

Record Host := {
  readError : bool;             (* the store's get request fires [onerror] *)
  hasFetch : bool;              (* [typeof fetch !== 'undefined'] *)
  network : nat → NetReply      (* the reply to the n-th request *)
}.

Record World := {
  (* the BreachChecker singleton *)
  lruCache : LRU.LRUCache;
  lastRequestTime : Z;
  dbReady : bool;
  (* IndexedDB: [None] when it is missing or cannot be opened *)
  idb : option (gmap string CacheEntry);
  clock : Z;                    (* [Date.now()] *)
  trace : list Event;
  host : Host
}.

Definition setLruCache (c : LRU.LRUCache) (w : World) : World :=
  {| lruCache := c; lastRequestTime := lastRequestTime w; dbReady := dbReady w;
     idb := idb w; clock := clock w; trace := trace w; host := host w |}.

Definition setLastRequestTime (t : Z) (w : World) : World :=
  {| lruCache := lruCache w; lastRequestTime := t; dbReady := dbReady w;
     idb := idb w; clock := clock w; trace := trace w; host := host w |}.

Definition setDbReady (b : bool) (w : World) : World :=
  {| lruCache := lruCache w; lastRequestTime := lastRequestTime w; dbReady := b;
     idb := idb w; clock := clock w; trace := trace w; host := host w |}.

Definition setIdb (d : option (gmap string CacheEntry)) (w : World) : World :=
  {| lruCache := lruCache w; lastRequestTime := lastRequestTime w;
     dbReady := dbReady w; idb := d; clock := clock w; trace := trace w;
     host := host w |}.

Definition setClock (t : Z) (w : World) : World :=
  {| lruCache := lruCache w; lastRequestTime := lastRequestTime w;
     dbReady := dbReady w; idb := idb w; clock := t; trace := trace w;
     host := host w |}.

Definition addEvent (ev : Event) (w : World) : World :=
  {| lruCache := lruCache w; lastRequestTime := lastRequestTime w;
     dbReady := dbReady w; idb := idb w; clock := clock w;
     trace := trace w ++ [ev]; host := host w |}.

(** ** A state and exception monad for the async methods *)

Inductive Completion (A : Type) :=
| Return (a : A)
| Throw (e : JsError).
Arguments Return {A} a.
Arguments Throw {A} e.

Definition M (A : Type) : Type := World → Completion A * World.

Definition ret {A} (a : A) : M A := fun w => (Return a, w).

Definition throw {A} (e : JsError) : M A := fun w => (Throw e, w).

Definition bind {A B} (m : M A) (k : A → M B) : M B :=
  fun w =>
    match m w with
    | (Return a, w') => k a w'
    | (Throw e, w') => (Throw e, w')
    end.

(** [try { m } catch (e) { handler e }] *)
Definition tryCatch {A} (m : M A) (handler : JsError → M A) : M A :=
  fun w =>
    match m w with
    | (Return a, w') => (Return a, w')
    | (Throw e, w') => handler e w'
    end.

Definition gets {A} (proj : World → A) : M A := fun w => (Return (proj w), w).

Definition modify (upd : World → World) : M unit := fun w => (Return tt, upd w).

Notation "'let*' x ':=' m 'in' k" := (bind m (fun x => k))
  (at level 10, x name, m at level 100, k at level 200).
Notation "m ';;' k" := (bind m (fun _ => k))
  (at level 100, k at level 200, right associativity).

Definition emit (ev : Event) : M unit := modify (addEvent ev).

(** [console.error] / [console.warn] *)
Definition log (what : string) : M unit := emit (EvLog what).

(** [await new Promise(resolve => setTimeout(resolve, ms))] *)
Definition sleep (ms : Z) : M unit :=
  emit (EvSleep ms) ;; modify (fun w => setClock (clock w + Z.max 0 ms) w).

(** ** IndexedDB *)

(** [BreachChecker.openDB] (220-239): rejects when [indexedDB] is undefined
    or the open request errors. *)
Definition openDB : M unit :=
  fun w =>
    match idb w with
    | Some _ => (Return tt, addEvent (EvOpenDB true) w)
    | None => (Throw (Err "Error" "IndexedDB not available"),
               addEvent (EvOpenDB false) w)
    end.

(** [LRUCache.openDB] (177-191): no [typeof] guard, the executor throws. *)
Definition LRUCache_openDB : M unit :=
  fun w =>
    match idb w with
    | Some _ => (Return tt, addEvent (EvOpenDB true) w)
    | None => (Throw (Err "ReferenceError" "indexedDB is not defined"),
               addEvent (EvOpenDB false) w)
    end.

Definition updStore (upd : gmap string CacheEntry → gmap string CacheEntry) : M unit :=
  modify (fun w => setIdb (upd <$> idb w) w).

(** [LRUCache.removeFromDB] (163-172) *)
Definition removeFromDB (prefix : string) : M unit :=
  tryCatch
    (LRUCache_openDB ;;
     emit (EvDelete prefix) ;;
     updStore (delete prefix))
    (fun _ => log "Error removing from IndexedDB:").

(** [this.lruCache.access(prefix)]: the list surgery, then the
    un-awaited [removeFromDB(evicted.key).catch(console.error)]. *)
Definition lruAccess (prefix : string) : M unit :=
  let* c := gets lruCache in
  let '(c', evicted) := LRU.access prefix c in
  modify (setLruCache c') ;;
  match evicted with
  | Some k => removeFromDB k
  | None => ret tt
  end.

(** [initDB] (205-215) *)
Definition initDB : M unit :=
  let* ready := gets dbReady in
  if ready then ret tt
  else
    tryCatch
      (openDB ;; modify (setDbReady true))
      (fun _ => log "IndexedDB not available, operating without cache persistence:").

(** The promise built inside [getCacheEntry] (250-270): the request's
    [onsuccess] / [onerror] handlers. *)
Definition readEntry (prefix : string) : M (option CacheEntry) :=
  emit (EvGet prefix) ;;
  let* failed := gets (fun w => readError (host w)) in
  if failed then throw (Err "DOMException" "request.error")
  else
    let* found := gets (fun w => idb w ≫= (fun db : gmap string CacheEntry => db !! prefix)) in
    match found with
    | None => ret None
    | Some entry =>
        let* now := gets clock in
        if CACHE_TTL_MS <? now - timestamp entry then
          emit (EvDelete prefix) ;;
          updStore (delete prefix) ;;
          ret None
        else ret (Some entry)
    end.

(** [getCacheEntry] (244-275). The [try] covers opening the store; the
    promise it returns is not awaited inside the [try], so a rejection of
    the read reaches the caller. *)
Definition getCacheEntry (prefix : string) : M (option CacheEntry) :=
  let* opened :=
    tryCatch (openDB ;; ret true)
             (fun _ => log "Error reading from cache:" ;; ret false) in
  if opened then readEntry prefix else ret None.

(** [setCacheEntry] (280-289) *)
Definition setCacheEntry (entry : CacheEntry) : M unit :=
  tryCatch
    (openDB ;;
     emit (EvPut (entryPrefix entry)) ;;
     updStore (insert (entryPrefix entry) entry))
    (fun _ => log "Error writing to cache:").

(** ** Rate limiting and the remote lookup *)

(** [rateLimit] (294-304) *)
Definition rateLimit : M unit :=
  let* now := gets clock in
  let* last := gets lastRequestTime in
  let timeSinceLastRequest := now - last in
  (if timeSinceLastRequest <? RATE_LIMIT_MS
   then sleep (RATE_LIMIT_MS - timeSinceLastRequest)
   else ret tt) ;;
  let* now' := gets clock in
  modify (setLastRequestTime now').

Definition isFetch (ev : Event) : bool :=
  match ev with
  | EvFetch _ _ => true
  | _ => false
  end.

(** Number of requests sent so far. *)
Definition sent (w : World) : nat := length (filter (fun ev => isFetch ev = true) (trace w)).

Definition AbortError : JsError := Err "AbortError" "The operation was aborted.".

(** [fetch(url, { signal, headers })] raced against the abort timer
    (321-331); on success also [response.text()]. *)
Definition fetch (url : string) (headers : list (string * string))
    (timeoutMs : Z) : M (Z * string) :=
  fun w =>
    let reply := network (host w) (sent w) in
    let w' := addEvent (EvFetch url headers) w in
    if timeoutMs <=? latency reply then
      (Throw AbortError, setClock (clock w' + Z.max 0 timeoutMs) w')
    else
      let w'' := setClock (clock w' + Z.max 0 (latency reply)) w' in
      match outcome reply with
      | NetReject e => (Throw e, w'')
      | NetRespond status body => (Return (status, body), w'')
      end.

(** [response.ok] *)
Definition responseOk (status : Z) : bool := (200 <=? status) && (status <=? 299).

(** [s.split(sep)] for a one-character separator. *)
Fixpoint splitChars (sep : ascii) (l : list ascii) : list (list ascii) :=
  match l with
  | [] => [[]]
  | c :: rest =>
      if Ascii.eqb c sep then [] :: splitChars sep rest
      else match splitChars sep rest with
           | piece :: pieces => (c :: piece) :: pieces
           | [] => [[c]]
           end
  end.

Definition isSpace (c : ascii) : bool :=
  let n := nat_of_ascii c in
  ((9 <=? n)%nat && (n <=? 13)%nat) || (n =? 32)%nat.

Fixpoint trimStart (l : list ascii) : list ascii :=
  match l with
  | c :: rest => if isSpace c then trimStart rest else l
  | [] => []
  end.

(** [s.trim()], ASCII white space. *)
Definition trim (l : list ascii) : list ascii :=
  reverse (trimStart (reverse (trimStart l))).

(** The parse of the response text (344-347). *)
Definition parseHashes (text : string) : list string :=
  let lines := splitChars "010"%char (Str.chars text) in
  let firsts :=
    map (fun line => Str.ofChars (trim (default [] (head (splitChars ":"%char line)))))
        lines in
  filter (fun h => h ≠ "") firsts.

Definition backoff (attempt : Z) : Z := INITIAL_BACKOFF_MS * 2 ^ attempt.

Definition userAgent : list (string * string) := [("User-Agent", "password-kit")].

(** How one iteration of the retry loop ends. *)
Inductive Attempt :=
| Fetched (hashes : list string)         (* [return hashes] *)
| Throttled                              (* 429: [continue] *)
| Caught (error : JsError) (stop : bool). (* the [catch] block; [stop] is [break] *)

(** The body of the [for] loop of [fetchFromHIBP] (316-363). *)
Definition attemptFetch (prefix : string) (timeoutMs : Z) (attempt : Z) : M Attempt :=
  tryCatch
    (rateLimit ;;
     let* response := fetch (HIBP_API_URL +:+ prefix) userAgent timeoutMs in
     let '(status, text) := response in
     if negb (responseOk status) then
       if status =? 429 then sleep (backoff attempt) ;; ret Throttled
       else throw (Err "Error" ("HIBP API error: " +:+ pretty status))
     else ret (Fetched (parseHashes text)))
    (fun error =>
       if String.eqb (name error) "AbortError" then ret (Caught error true)
       else
         (if attempt <? Z.of_nat MAX_RETRIES - 1 then sleep (backoff attempt)
          else ret tt) ;;
         ret (Caught error false)).

(** The loop itself, [remaining] iterations from [attempt] on, and the
    final [throw lastError || new Error(...)] (366). *)
Fixpoint fetchLoop (remaining : nat) (attempt : Z) (lastError : option JsError)
    (prefix : string) (timeoutMs : Z) : M (list string) :=
  match remaining with
  | O => throw (default (Err "Error" "Failed to fetch from HIBP") lastError)
  | S remaining' =>
      let* a := attemptFetch prefix timeoutMs attempt in
      match a with
      | Fetched hashes => ret hashes
      | Throttled => fetchLoop remaining' (attempt + 1) lastError prefix timeoutMs
      | Caught error true => throw error
      | Caught error false =>
          fetchLoop remaining' (attempt + 1) (Some error) prefix timeoutMs
      end
  end.

(** [fetchFromHIBP] (309-367) *)
Definition fetchFromHIBP (prefix : string) (timeoutMs : Z) : M (list string) :=
  fetchLoop MAX_RETRIES 0 None prefix timeoutMs.

(** ** The orchestrator *)

Definition offlineResult : BreachResult :=
  Result false None None (Some true) None.

Definition errorResult : BreachResult :=
  Result false None None None None.

(** The verdict object built on a hit or after a fetch (392-401, 432-441). *)
Definition verdict (suffix : string) (bucket : list string) (fromCache : bool)
    : BreachResult :=
  let found := bool_decide (suffix ∈ bucket) in
  Result true (Some found) (if found then Some 1 else None) None (Some fromCache).

(** [checkPassword] (372-457) *)
Definition checkPassword (password : string) (options : BreachCheckOptions)
    : M BreachResult :=
  let allowNet := default true (allowNetwork options) in
  let timeoutMs := default 5000 (timeout options) in
  tryCatch
    (initDB ;;
     let hash := passwordHash password in
     let prefix := Str.substring 0 5 hash in
     let suffix := Str.substringFrom 5 hash in
     lruAccess prefix ;;
     let* hit := getCacheEntry prefix in
     match hit with
     | Some entry => ret (verdict suffix (hashes entry) true)
     | None =>
         if negb allowNet then ret offlineResult
         else
           let* canFetch := gets (fun w => hasFetch (host w)) in
           if negb canFetch then ret offlineResult
           else
             tryCatch
               (let* bucket := fetchFromHIBP prefix timeoutMs in
                let* now := gets clock in
                setCacheEntry (Entry prefix bucket now) ;;
                ret (verdict suffix bucket false))
               (fun _ => ret offlineResult)
     end)
    (fun _ => log "Breach check error:" ;; ret errorResult).

(** [clearCache] (462-472) *)
Definition clearCache : M unit :=
  tryCatch
    (openDB ;;
     emit EvClear ;;
     updStore (fun _ => ∅) ;;
     modify (setLruCache (LRU.new MAX_CACHE_SIZE)))
    (fun _ => log "Error clearing cache:").

(** The exported functions (519-540) run on the one [checker] instance. *)
Definition checkPasswordBreach (password : string)
    (options : BreachCheckOptions) : M BreachResult :=
  checkPassword password options.

Definition clearBreachCache : M unit := clearCache.

(** A freshly loaded module: [new BreachChecker()] in a given host. *)
Definition freshWorld (store : option (gmap string CacheEntry)) (now : Z)
    (h : Host) : World :=
  {| lruCache := LRU.new MAX_CACHE_SIZE; lastRequestTime := 0; dbReady := false;
     idb := store; clock := now; trace := []; host := h |}.
(** ** Representation invariant of the LRU index *)

Module LRUInv.
Import LRU.

(** First and last reference of a run of nodes, [dflt] when it is empty. *)
Definition first (items : list (loc * string)) (dflt : option loc) : option loc :=
  match items with
  | [] => dflt
  | (l, _) :: _ => Some l
  end.

Definition final (items : list (loc * string)) (dflt : option loc) : option loc :=
  match last items with
  | None => dflt
  | Some (l, _) => Some l
  end.

(** [dseg h p items nx]: in heap [h] the nodes [items] (reference and key)
    are chained through [next] and [prev]; the first one's [prev] is [p],
    the last one's [next] is [nx]. *)
Fixpoint dseg (h : gmap loc LRUNode) (p : option loc)
    (items : list (loc * string)) (nx : option loc) : Prop :=
  match items with
  | [] => True
  | (l, k) :: rest =>
      h !! l = Some (Node k p (first rest nx)) ∧ dseg h (Some l) rest nx
  end.

(** [Rep c items]: the cache [c] holds exactly the nodes [items], most
    recently used first. *)
Record Rep (c : LRUCache) (items : list (loc * string)) : Prop := {
  rep_nodup_loc : NoDup items.*1;
  rep_nodup_key : NoDup items.*2;
  rep_seg : dseg (heap c) None items None;
  rep_head : head c = first items None;
  rep_tail : tail c = final items None;
  rep_cache : ∀ k l, cache c !! k = Some l ↔ (l, k) ∈ items;
  rep_fresh : ∀ l, l ∈ items.*1 → (l < fresh c)%nat
}.

(** [touchedAfter hist x e]: in the history of touched keys (oldest first)
    [x] has been touched after the last touch of [e]. *)
Definition touchedAfter (hist : list string) (x e : string) : Prop :=
  ∃ h1 h2, hist = h1 ++ e :: h2 ∧ (e ∉ h2) ∧ x ∈ h2.

(** [e] is the least recently touched key of [keys]. *)
Definition leastRecent (hist : list string) (keys : gset string) (e : string) : Prop :=
  e ∈ keys ∧ ∀ x, x ∈ keys → x ≠ e → touchedAfter hist x e.

(** States reached by touching the keys [hist] from an empty cache. *)
Record Inv (cap : nat) (hist : list string) (c : LRUCache)
    (items : list (loc * string)) : Prop := {
  inv_rep : Rep c items;
  inv_cap : maxSize c = cap;
  inv_len : (length items ≤ cap)%nat;
  inv_order : StronglySorted (touchedAfter hist) items.*2;
  inv_hist : ∀ k, k ∈ items.*2 → k ∈ hist
}.

End LRUInv.

(** ** Vocabulary for the statements about the checker *)

(** [checkPassword] with the digest already split. *)
Definition checkWith (prefix suffix : string) (options : BreachCheckOptions)
    : M BreachResult :=
  let allowNet := default true (allowNetwork options) in
  let timeoutMs := default 5000 (timeout options) in
  tryCatch
    (initDB ;;
     lruAccess prefix ;;
     let* hit := getCacheEntry prefix in
     match hit with
     | Some entry => ret (verdict suffix (hashes entry) true)
     | None =>
         if negb allowNet then ret offlineResult
         else
           let* canFetch := gets (fun w => hasFetch (host w)) in
           if negb canFetch then ret offlineResult
           else
             tryCatch
               (let* bucket := fetchFromHIBP prefix timeoutMs in
                let* now := gets clock in
                setCacheEntry (Entry prefix bucket now) ;;
                ret (verdict suffix bucket false))
               (fun _ => ret offlineResult)
     end)
    (fun _ => log "Breach check error:" ;; ret errorResult).

(** A reply that does not give a bucket: it comes after the abort timer, it
    is a rejection, or its status is not a success (429 included). *)
Definition replyFails (timeoutMs : Z) (r : NetReply) : bool :=
  (timeoutMs <=? latency r)
  || match outcome r with
     | NetReject _ => true
     | NetRespond status _ => negb (responseOk status)
     end.

(** A failed reply after which the loop goes on: in time, and neither a
    success nor a rejection named [AbortError]. *)
Definition retryable (timeoutMs : Z) (r : NetReply) : bool :=
  negb (timeoutMs <=? latency r)
  && match outcome r with
     | NetReject e => negb (String.eqb (name e) "AbortError")
     | NetRespond status _ => negb (responseOk status)
     end.

(** The unexpired record stored for a prefix, if any. *)
Definition freshEntry (w : World) (prefix : string) : option CacheEntry :=
  match idb w with
  | Some db =>
      match db !! prefix with
      | Some e => if CACHE_TTL_MS <? clock w - timestamp e then None else Some e
      | None => None
      end
  | None => None
  end.

(** The store's get request does not fire [onerror]. *)
Definition readable (w : World) : Prop :=
  is_Some (idb w) → readError (host w) = false.

Definition fetches (evs : list Event) : list Event :=
  filter (fun ev => isFetch ev = true) evs.

Definition isFailedOpen (ev : Event) : bool :=
  match ev with
  | EvOpenDB false => true
  | _ => false
  end.

Definition failedOpens (evs : list Event) : nat :=
  length (filter (fun ev => isFailedOpen ev = true) evs).

(** The events a run adds to the trace. *)
Definition added (w w' : World) : list Event := drop (length (trace w)) (trace w').

(** The request for a prefix. *)
Definition requestFor (prefix : string) : Event :=
  EvFetch (HIBP_API_URL +:+ prefix) userAgent.

(** What the network phase leaves alone: only the clock, the time of the
    last request and the trace move. *)
Definition netFrame (w w' : World) (evs : list Event) : Prop :=
  lruCache w' = lruCache w ∧ dbReady w' = dbReady w ∧ idb w' = idb w
  ∧ host w' = host w ∧ trace w' = trace w ++ evs.

(** What every method leaves alone: the host, the past of the trace, and
    the absence of a store (with it, the [dbReady] flag). *)
Definition evolves (w w' : World) (evs : list Event) : Prop :=
  host w' = host w ∧ trace w' = trace w ++ evs
  ∧ (idb w = None → idb w' = None ∧ dbReady w' = dbReady w).

(** The shapes a result can take. *)
Definition wellFormed (suffix : string) (r : BreachResult) : Prop :=
  r = errorResult ∨ r = offlineResult
  ∨ ∃ bucket fromCache, r = verdict suffix bucket fromCache.


(** ** The two refuted readings, as statements *)



(** ** Sample hosts *)

(** Every request is answered 429 after 10 ms. *)
Definition throttlingHost : Host :=
  {| readError := false; hasFetch := true;
     network := fun _ => Reply 10 (NetRespond 429 "") |}.

(** The first request is throttled, the second gets a bucket that holds
    the suffix of "password". *)
Definition recoveringHost : Host :=
  {| readError := false; hasFetch := true;
     network := fun n =>
       match n with
       | O => Reply 10 (NetRespond 429 "")
       | _ => Reply 10 (NetRespond 200
                "0018A45C4D1DEF81644B54AB7F969B88D65:1
1E4C9B93F3F0682250B6CF8331B7EE68FD8:3730471")
       end |}.

(** The store's reads fail. *)
Definition brokenReadHost : Host :=
  {| readError := true; hasFetch := true;
     network := fun _ => Reply 10 (NetRespond 200 "") |}.

Definition defaultOptions : BreachCheckOptions := Options None None.
Definition offlineOptions : BreachCheckOptions := Options (Some false) None.

(** ** Recency order of a history of touches *)

(** Touching [k] in a recency list: [k] comes first, once. *)
Definition touchKey (k : string) (ks : list string) : list string :=
  k :: filter (fun x => x ≠ k) ks.

(** The distinct keys of a history (oldest touch first), from the most to
    the least recently touched. *)
Definition recent (hist : list string) : list string :=
  foldl (fun ks k => touchKey k ks) [] hist.

(** ** Sessions: calls of the exported functions, with time passing *)

Inductive Call :=
| CallCheck (password : string) (options : BreachCheckOptions)
| CallClear
| Tick (ms : Z).

Definition step (w : World) (c : Call) : World :=
  match c with
  | CallCheck password options => (checkPasswordBreach password options w).2
  | CallClear => (clearBreachCache w).2
  | Tick ms => setClock (clock w + Z.max 0 ms) w
  end.

Definition session (calls : list Call) (w : World) : World := foldl step w calls.

(** The keys of the store; none when there is no store. *)
Definition storedKeys (w : World) : gset string :=
  match idb w with
  | Some db => dom db
  | None => ∅
  end.

(** The LRU index of the world has been grown from an empty one by
    touches only, as the checker does. *)
Definition lruGrown (w : World) : Prop :=
  ∃ hist, lruCache w = LRU.run hist (LRU.new MAX_CACHE_SIZE).

(** A host whose every request gets the bucket that holds the suffix of
    "password". *)
Definition passwordBucket : string :=
  "0018A45C4D1DEF81644B54AB7F969B88D65:1
1E4C9B93F3F0682250B6CF8331B7EE68FD8:3730471".

Definition servingHost : Host :=
  {| readError := false; hasFetch := true;
     network := fun _ => Reply 10 (NetRespond 200 passwordBucket) |}.

(** ** Kinds of failed replies *)



(** ** Response bodies *)





(** ** The React hook [useBreachCheck] (packages/react, useBreachCheck.ts)

    The hook's state ([useState] cells and the [cancelledRef] ref) is a
    record; [check] runs on it and on the world of the checker. The one
    suspension point of [check] is the [await]: [clearedMeanwhile] tells
    whether [clear()] ran while the call was pending. *)

Module Hook.

Record UseBreachCheckOptions := HookOptions {
  allowNetwork : option bool;
  timeout : option Z;
  autoCheck : option bool;
  debounce : option Z
}.

Record State := {
  result : option BreachResult;
  loading : bool;
  error : option JsError;
  cancelledRef : bool
}.

(** The state on first render. *)
Definition initial : State :=
  {| result := None; loading := false; error := None; cancelledRef := false |}.

(** [clear] (174-179) *)
Definition clear (s : State) : State :=
  {| result := None; loading := false; error := None; cancelledRef := true |}.

Definition emptyResult : BreachResult := Result false None None None None.

(** [check] (133-172) *)
Definition check (options : UseBreachCheckOptions) (password : string)
    (clearedMeanwhile : bool) (sw : State * World)
    : Completion BreachResult * (State * World) :=
  let allowNet := default true (allowNetwork options) in
  let timeoutMs := default 5000 (timeout options) in
  let '(s, w) := sw in
  if String.eqb password "" then
    (Return emptyResult,
     ({| result := Some emptyResult; loading := loading s; error := error s;
         cancelledRef := cancelledRef s |}, w))
  else
    let s1 := {| result := result s; loading := true; error := None;
                 cancelledRef := false |} in
    let '(c, w') :=
      checkPasswordBreach password (Options (Some allowNet) (Some timeoutMs)) w in
    let s2 := if clearedMeanwhile then clear s1 else s1 in
    match c with
    | Return checkResult =>
        (Return checkResult,
         (if cancelledRef s2 then s2
          else {| result := Some checkResult; loading := false;
                  error := error s2; cancelledRef := cancelledRef s2 |}, w'))
    | Throw err =>
        (Throw err,
         (if cancelledRef s2 then s2
          else {| result := result s2; loading := false; error := Some err;
                  cancelledRef := cancelledRef s2 |}, w'))
    end.

(** The derived fields of the returned object (185-186). *)
Definition breachedField (s : State) : option bool :=
  match result s with
  | Some r => breached r
  | None => None
  end.

Definition countField (s : State) : option Z :=
  match result s with
  | Some r => count r
  | None => None
  end.

End Hook.
Example sha1_abc :
  passwordHash "abc" = "A9993E364706816ABA3E25717850C26C9CD0D89D".
Proof. vm_compute. reflexivity. Qed.

Example sha1_password :
  passwordHash "password" = "5BAA61E4C9B93F3F0682250B6CF8331B7EE68FD8".
Proof. vm_compute. reflexivity. Qed.

Example sha1_empty :
  passwordHash "" = "DA39A3EE5E6B4B0D3255BFEF95601890AFD80709".
Proof. vm_compute. reflexivity. Qed.

Example sha1_two_blocks :
  passwordHash "abcdbcdecdefdefgefghfghighijhijkijkljklmklmnlmnomnopnopq"
  = "84983E441C3BD26EBAAE4AA1F95129E5E54670F1".
Proof. vm_compute. reflexivity. Qed.

Example prefix_password : hashPrefix "password" = "5BAA6".
Proof. vm_compute. reflexivity. Qed.
Module LRUFacts.
Import LRU LRUInv.

Lemma first_app a b d : first (a ++ b) d = first a (first b d).
Proof. by destruct a as [|[??]?]. Qed.

Lemma final_nil d : final [] d = d.
Proof. done. Qed.

Lemma final_cons l k items d : final ((l, k) :: items) d = final items (Some l).
Proof.
  unfold final. destruct items as [|x items]; [done|].
  rewrite last_cons_cons. by destruct (last (x :: items)) as [[??]|] eqn:E;
    [|apply last_None in E].
Qed.

Lemma final_snoc a l k d : final (a ++ [(l, k)]) d = Some l.
Proof. unfold final. by rewrite last_snoc. Qed.

Lemma final_app a b d : final (a ++ b) d = final b (final a d).
Proof.
  revert d. induction a as [|[l k] a IH]; intros d; [done|].
  simpl. by rewrite !final_cons, IH.
Qed.

Lemma first_nonempty items d d' : items ≠ [] → first items d = first items d'.
Proof. by destruct items as [|[??]?]. Qed.

Lemma final_nonempty items d d' : items ≠ [] → final items d = final items d'.
Proof.
  intros Hne. destruct (last items) as [[l k]|] eqn:E.
  - apply last_Some in E as [a ->]. by rewrite !final_snoc.
  - by apply last_None in E.
Qed.

Lemma first_elem items d l : first items d = Some l → items ≠ [] → l ∈ items.*1.
Proof. destruct items as [|[??]?]; [done|]. intros [= ->] _. simpl. left. Qed.

Lemma final_elem items d l : final items d = Some l → items ≠ [] → l ∈ items.*1.
Proof.
  intros Hf Hne. destruct (last items) as [[l' k]|] eqn:E.
  - apply last_Some in E as [a ->]. rewrite final_snoc in Hf. injection Hf as ->.
    rewrite fmap_app. apply elem_of_app. right. simpl. left.
  - by apply last_None in E.
Qed.

(** *** Framing: updates elsewhere in the heap *)

Lemma dseg_alter_ne h upd l p items nx :
  l ∉ items.*1 → dseg h p items nx → dseg (alter upd l h) p items nx.
Proof.
  revert p. induction items as [|[l' k] rest IH]; intros p Hl; [done|].
  simpl in *. apply not_elem_of_cons in Hl as [Hne Hl]. intros [Hn Hrest].
  split; [by rewrite lookup_alter_ne | by apply IH].
Qed.

Lemma dseg_store_ne h upd o p items nx :
  (∀ l, o = Some l → l ∉ items.*1) →
  dseg h p items nx → dseg (store upd o h) p items nx.
Proof.
  destruct o as [l|]; simpl; [|done]. intros Hl. apply dseg_alter_ne. by apply Hl.
Qed.

Lemma dseg_insert_ne h nd l p items nx :
  l ∉ items.*1 → dseg h p items nx → dseg (<[l:=nd]> h) p items nx.
Proof.
  revert p. induction items as [|[l' k] rest IH]; intros p Hl; [done|].
  simpl in *. apply not_elem_of_cons in Hl as [Hne Hl]. intros [Hn Hrest].
  split; [by rewrite lookup_insert_ne | by apply IH].
Qed.

Lemma dseg_app h p a b nx :
  dseg h p (a ++ b) nx ↔ dseg h p a (first b nx) ∧ dseg h (final a p) b nx.
Proof.
  revert p. induction a as [|[l k] a IH]; intros p; simpl.
  - rewrite final_nil. tauto.
  - rewrite final_cons, first_app, IH. tauto.
Qed.

Lemma dseg_lookup h p items nx l k :
  dseg h p items nx → (l, k) ∈ items → ∃ nd, h !! l = Some nd ∧ key nd = k.
Proof.
  revert p. induction items as [|[l' k'] rest IH]; intros p Hseg Hin.
  - by apply elem_of_nil in Hin.
  - destruct Hseg as [Hn Hrest]. apply elem_of_cons in Hin as [[= -> ->]|Hin]; eauto.
Qed.

(** *** Re-linking the ends of a run *)

Lemma dseg_set_prev h p q items nx :
  NoDup items.*1 → dseg h p items nx →
  dseg (store (setPrev q) (first items None) h) q items nx.
Proof.
  destruct items as [|[l k] rest]; [done|]. simpl.
  intros [Hl _]%NoDup_cons [Hn Hrest]. split.
  - by rewrite lookup_alter_eq, Hn.
  - by apply dseg_alter_ne.
Qed.

Lemma dseg_set_next h p q items nx :
  NoDup items.*1 → dseg h p items nx →
  dseg (store (setNext q) (final items None) h) p items q.
Proof.
  revert p. induction items as [|[l k] rest IH]; intros p; [done|].
  simpl. intros [Hl Hnd]%NoDup_cons [Hn Hrest]. rewrite final_cons.
  destruct rest as [|[l' k'] rest'].
  - simpl. by rewrite lookup_alter_eq, Hn.
  - rewrite (final_nonempty _ (Some l) None) by done. split.
    + destruct (final ((l', k') :: rest') None) as [t|] eqn:Ht; simpl; [|done].
      rewrite lookup_alter_ne; [done|]. intros ->.
      apply final_elem in Ht; [|done]. done.
    + by apply IH.
Qed.


(** *** The lookup map against the list *)

Lemma Rep_dom c items : Rep c items → dom (cache c) = list_to_set items.*2.
Proof.
  intros R. apply set_eq. intros k.
  rewrite elem_of_dom, elem_of_list_to_set, list_elem_of_fmap. split.
  - intros [l Hl]. apply (rep_cache _ _ R) in Hl. by exists (l, k).
  - intros [[l k'] [-> Hin]]. exists l. by apply (rep_cache _ _ R).
Qed.

Lemma Rep_size c items : Rep c items → size (cache c) = length items.
Proof.
  intros R. rewrite <- size_dom, (Rep_dom _ _ R).
  rewrite size_list_to_set by apply (rep_nodup_key _ _ R).
  by rewrite length_fmap.
Qed.

Lemma Rep_lookup_None c items k :
  Rep c items → cache c !! k = None ↔ k ∉ items.*2.
Proof.
  intros R. rewrite <- not_elem_of_dom, (Rep_dom _ _ R), elem_of_list_to_set. done.
Qed.

Lemma Rep_new cap : Rep (new cap) [].
Proof.
  split; simpl; try done; try apply NoDup_nil_2.
  - intros k l. rewrite lookup_empty. split; [done|]. by intros ?%elem_of_nil.
  - by intros l ?%elem_of_nil.
Qed.

(** *** [moveToFront] *)

Lemma moveToFront_Rep c a n k b :
  Rep c (a ++ (n, k) :: b) → Rep (moveToFront n c) ((n, k) :: a ++ b).
Proof.
  intros R. pose proof (rep_nodup_loc _ _ R) as Hnd.
  pose proof (rep_seg _ _ R) as Hseg.
  rewrite fmap_app in Hnd. simpl in Hnd.
  apply NoDup_app in Hnd as (Hnda & Hab & Hndb).
  apply NoDup_cons in Hndb as [Hnb Hndb].
  assert (Hna : n ∉ a.*1) by (intros Hin; apply (Hab _ Hin); left).
  assert (Hdisj : ∀ l, l ∈ a.*1 → l ∉ b.*1)
    by (intros l Hin Hin'; apply (Hab _ Hin); by right).
  unfold moveToFront. rewrite (rep_head _ _ R), first_app. simpl.
  destruct a as [|[l0 k0] a0] using rev_ind.
  { simpl. rewrite decide_True by done. done. }
  clear IHa0. set (a := a0 ++ [(l0, k0)]) in *.
  assert (Hane : a ≠ []) by (subst a; by destruct a0).
  assert (Hfin : ∀ d, final a d = Some l0) by (intros d; subst a; apply final_snoc).
  assert (Hl0 : l0 ∈ a.*1).
  { subst a. rewrite fmap_app. apply elem_of_app. right. left. }
  assert (Hfa : ∃ f0, first a (Some n) = Some f0 ∧ first a None = Some f0 ∧ f0 ∈ a.*1).
  { destruct a as [|[f0 ?] ?]; [done|]. exists f0. repeat split. left. }
  destruct Hfa as (f0 & Hf1 & Hf2 & Hf0).
  rewrite Hf1. rewrite decide_False by (intros [= ->]; done).
  apply dseg_app in Hseg as [Hsa Hsb]. rewrite (Hfin None) in Hsb.
  simpl in Hsa, Hsb. destruct Hsb as [Hn Hsb].
  assert (Hp0 : prevOf (heap c) n = Some l0) by (unfold prevOf; by rewrite Hn).
  assert (Hn0 : nextOf (heap c) n = first b None) by (unfold nextOf; by rewrite Hn).
  rewrite Hp0, Hn0. simpl.
  set (h1 := alter (setNext (first b None)) l0 (heap c)).
  assert (Hne0 : l0 ≠ n) by (intros ->; done).
  assert (Hn1 : h1 !! n = Some (Node k (Some l0) (first b None))).
  { unfold h1. by rewrite lookup_alter_ne. }
  assert (Hsa1 : dseg h1 None a (first b None)).
  { pose proof (dseg_set_next _ _ (first b None) _ _ Hnda Hsa) as H'.
    by rewrite (Hfin None) in H'. }
  assert (Hsb1 : dseg h1 (Some n) b None).
  { apply dseg_alter_ne; [by apply Hdisj | done]. }
  assert (Hp1 : prevOf h1 n = Some l0) by (unfold prevOf; by rewrite Hn1).
  assert (Hnx1 : nextOf h1 n = first b None) by (unfold nextOf; by rewrite Hn1).
  rewrite Hp1, Hnx1.
  set (h2 := store (setPrev (Some l0)) (first b None) h1).
  assert (Hfb : ∀ l, first b None = Some l → l ∈ b.*1).
  { intros l Hl. destruct b as [|[??]?]; [done|]. injection Hl as ->. left. }
  assert (Hn2 : h2 !! n = Some (Node k (Some l0) (first b None))).
  { unfold h2. destruct (first b None) as [fb|] eqn:Efb; simpl; [|done].
    rewrite lookup_alter_ne; [done|]. intros ->. apply Hnb. by apply Hfb. }
  assert (Hsb2 : dseg h2 (Some l0) b None)
    by apply (dseg_set_prev h1 (Some n) (Some l0) b None Hndb Hsb1).
  assert (Hsa2 : dseg h2 None a (first b None)).
  { apply dseg_store_ne; [|done]. intros l Hl Hin. by apply (Hdisj l); [|apply Hfb]. }
  assert (Hp2 : prevOf h2 n = Some l0) by (unfold prevOf; by rewrite Hn2).
  rewrite Hp2.
  set (h3 := alter (λ nd, setNext (Some f0) (setPrev None nd)) n h2).
  assert (Hn3 : h3 !! n = Some (Node k None (Some f0))).
  { unfold h3. by rewrite lookup_alter_eq, Hn2. }
  assert (Hndab : NoDup (a ++ b).*1).
  { rewrite fmap_app. apply NoDup_app. done. }
  assert (Hnab : n ∉ (a ++ b).*1).
  { rewrite fmap_app, elem_of_app. tauto. }
  assert (Hs3 : dseg h3 None (a ++ b) None).
  { apply dseg_alter_ne; [done|]. apply dseg_app. by rewrite (Hfin None). }
  assert (Hfab : first (a ++ b) None = Some f0).
  { rewrite first_app. by rewrite (first_nonempty _ _ None). }
  set (h4 := alter (setPrev (Some n)) f0 h3).
  assert (Hs4 : dseg h4 (Some n) (a ++ b) None).
  { pose proof (dseg_set_prev _ _ (Some n) _ _ Hndab Hs3) as H'.
    by rewrite Hfab in H'. }
  assert (Hn4 : h4 !! n = Some (Node k None (Some f0))).
  { unfold h4. rewrite lookup_alter_ne; [done|]. by intros ->. }
  split; simpl.
  - apply NoDup_cons. done.
  - pose proof (rep_nodup_key _ _ R) as Hk. rewrite fmap_app in *. simpl in Hk.
    apply NoDup_app in Hk as (Hka & Hkab & Hkb).
    apply NoDup_cons in Hkb as [Hkb1 Hkb2].
    apply NoDup_cons. split.
    + rewrite elem_of_app. intros [Hin|Hin]; [|done]. apply (Hkab _ Hin). left.
    + apply NoDup_app. repeat split; try done.
      intros x Hx Hx'. apply (Hkab _ Hx). by right.
  - rewrite Hfab. done.
  - done.
  - rewrite (rep_tail _ _ R), final_cons, !final_app, final_cons.
    destruct b as [|[lb kb] b'].
    + simpl. rewrite !final_nil, decide_True by done. by rewrite Hfin.
    + rewrite (final_nonempty _ (Some n) (final a (Some n))) by done.
      rewrite decide_False; [done|].
      intros Ht. apply final_elem in Ht; done.
  - intros k' l'. rewrite (rep_cache _ _ R).
    rewrite elem_of_cons, !elem_of_app, elem_of_cons. tauto.
  - intros l' Hl'. apply (rep_fresh _ _ R).
    rewrite fmap_app in *. simpl in *.
    rewrite elem_of_cons, elem_of_app in Hl'.
    rewrite elem_of_app, elem_of_cons. tauto.
Qed.

(** *** [evictLRU] *)

Lemma evictLRU_Rep c a l k :
  Rep c (a ++ [(l, k)]) →
  ∃ c', evictLRU c = (c', Some k) ∧ Rep c' a ∧ maxSize c' = maxSize c
        ∧ fresh c' = fresh c.
Proof.
  intros R. pose proof (rep_nodup_loc _ _ R) as Hnd.
  pose proof (rep_nodup_key _ _ R) as Hnk.
  pose proof (rep_seg _ _ R) as Hseg.
  rewrite fmap_app in Hnd. rewrite fmap_app in Hnk. simpl in Hnd, Hnk.
  apply NoDup_app in Hnd as (Hnda & Hla & _).
  apply NoDup_app in Hnk as (Hnka & Hka & _).
  apply dseg_app in Hseg as [Hsa [Hn _]]. simpl in Hsa, Hn.
  assert (Hcache : ∀ k' l', delete k (cache c) !! k' = Some l' ↔ (l', k') ∈ a).
  { intros k' l'. rewrite lookup_delete_Some, (rep_cache _ _ R), elem_of_app,
      list_elem_of_singleton. split.
    - intros [Hne [?|[= _ ->]]]; done.
    - intros Hin. split; [|by left]. intros <-.
      apply (Hka k); [|left]. apply list_elem_of_fmap. by exists (l', k). }
  unfold evictLRU. rewrite (rep_tail _ _ R), final_snoc, Hn. simpl.
  destruct (final a None) as [t|] eqn:Ht.
  - eexists. split; [done|]. split; [|done].
    assert (Hane : a ≠ []) by (intros ->; done).
    split; simpl; try done.
    + pose proof (dseg_set_next _ _ None _ _ Hnda Hsa) as H'. by rewrite Ht in H'.
    + rewrite (rep_head _ _ R), first_app. by apply first_nonempty.
    + intros l' Hl'. apply (rep_fresh _ _ R). rewrite fmap_app, elem_of_app. by left.
  - eexists. split; [done|]. split; [|done].
    assert (a = []) as ->.
    { destruct (last a) as [[??]|] eqn:E; [|by apply last_None in E].
      unfold final in Ht. by rewrite E in Ht. }
    split; simpl; try done.
    by intros l' ?%elem_of_nil.
Qed.

(** *** [access] *)

Lemma filter_ne_id (k : string) (ks : list string) :
  k ∉ ks → filter (λ x, x ≠ k) ks = ks.
Proof.
  induction ks as [|x ks IH]; [done|]. intros [Hne Hin]%not_elem_of_cons.
  rewrite filter_cons_True by done. by rewrite IH.
Qed.

Lemma insert_Rep c items k :
  Rep c items → k ∉ items.*2 →
  Rep (Cache (store (setPrev (Some (fresh c))) (head c)
                (<[fresh c := Node k None (head c)]> (heap c)))
             (S (fresh c)) (<[k := fresh c]> (cache c)) (Some (fresh c))
             (match tail c with None => Some (fresh c) | Some t => Some t end)
             (maxSize c))
      ((fresh c, k) :: items).
Proof.
  intros R Hk. set (n := fresh c).
  assert (Hn : n ∉ items.*1).
  { intros Hin. apply (rep_fresh _ _ R) in Hin. unfold n in Hin. lia. }
  split; simpl.
  - apply NoDup_cons. split; [done|apply (rep_nodup_loc _ _ R)].
  - apply NoDup_cons. split; [done|apply (rep_nodup_key _ _ R)].
  - rewrite (rep_head _ _ R). split.
    + destruct (first items None) as [f0|] eqn:Hf; simpl.
      * rewrite lookup_alter_ne, lookup_insert_eq; [done|]. intros <-.
        apply Hn. apply (first_elem _ _ _ Hf). by intros ->.
      * by rewrite lookup_insert_eq.
    + apply dseg_set_prev with (p := None); [apply (rep_nodup_loc _ _ R)|].
      apply dseg_insert_ne; [done|apply (rep_seg _ _ R)].
  - done.
  - rewrite (rep_tail _ _ R), final_cons. unfold final.
    by destruct (last items) as [[??]|].
  - intros k' l'. rewrite lookup_insert_Some, (rep_cache _ _ R), elem_of_cons.
    split.
    + intros [[<- <-]|[_ ?]]; [by left|by right].
    + intros [[= -> ->]|Hin]; [by left|]. right. split; [|done]. intros <-.
      apply Hk. apply list_elem_of_fmap. by exists (l', k).
  - intros l' [->|Hin]%elem_of_cons; [unfold n; lia|].
    apply (rep_fresh _ _ R) in Hin. lia.
Qed.

(** What one [access] does to a well-formed cache: a hit moves the node to
    the front, a miss with room inserts at the front, a miss on a full
    cache inserts and drops the last node, reporting its key. *)
Lemma access_Rep c items k :
  Rep c items →
  (∃ a n b, items = a ++ (n, k) :: b ∧ (access k c).2 = None
            ∧ Rep (access k c).1 ((n, k) :: a ++ b))
  ∨ ((k ∉ items.*2) ∧ (length items < maxSize c)%nat ∧ (access k c).2 = None
     ∧ Rep (access k c).1 ((fresh c, k) :: items))
  ∨ ((k ∉ items.*2) ∧ (maxSize c ≤ length items)%nat
     ∧ ∃ pre l e, (fresh c, k) :: items = pre ++ [(l, e)]
                  ∧ (access k c).2 = Some e ∧ Rep (access k c).1 pre).
Proof.
  intros R. unfold access. destruct (cache c !! k) as [n|] eqn:Hc.
  - left. apply (rep_cache _ _ R) in Hc.
    apply list_elem_of_split in Hc as (a & b & ->).
    exists a, n, b. split; [done|]. split; [done|]. simpl. by apply moveToFront_Rep.
  - right. apply (Rep_lookup_None _ _ _ R) in Hc.
    pose proof (insert_Rep _ _ _ R Hc) as R'.
    pose proof (Rep_size _ _ R') as Hsz. simpl in Hsz. simpl.
    rewrite Hsz. destruct (decide (maxSize c < S (length items))%nat) as [Hfull|Hroom].
    + right. split; [done|]. split; [lia|].
      destruct (last ((fresh c, k) :: items)) as [[l e]|] eqn:E;
        [|by apply last_None in E].
      apply last_Some in E as [pre E]. exists pre, l, e. split; [done|].
      rewrite E in R'. apply evictLRU_Rep in R' as (c' & -> & R'' & _).
      done.
    + left. split; [done|]. split; [lia|]. done.
Qed.

Lemma access_maxSize c k : maxSize (access k c).1 = maxSize c.
Proof.
  unfold access. destruct (cache c !! k) as [n|].
  - simpl. unfold moveToFront. by destruct (decide _).
  - simpl. destruct (decide _); [|done]. unfold evictLRU. simpl.
    repeat case_match; done.
Qed.

(** *** Walking the list from [head] *)

Lemma walk_dseg h p items fuel :
  dseg h p items None → (length items ≤ fuel)%nat →
  walk fuel h (first items None) = items.*1.
Proof.
  revert p fuel. induction items as [|[l k] rest IH]; intros p fuel Hseg Hlen.
  - by destruct fuel.
  - destruct fuel as [|fuel]; simpl in *; [lia|]. destruct Hseg as [Hn Hrest].
    unfold nextOf. rewrite Hn. simpl. f_equal. eapply IH; [done|lia].
Qed.

Lemma dseg_keys h p items nx :
  dseg h p items nx → omap (keyAt h) items.*1 = items.*2.
Proof.
  revert p. induction items as [|[l k] rest IH]; intros p; [done|].
  simpl. intros [Hn Hrest]. unfold keyAt at 1. rewrite Hn. simpl. f_equal. eauto.
Qed.

Lemma Rep_heap_bound c items : Rep c items → (length items ≤ size (heap c))%nat.
Proof.
  intros R. rewrite <- (length_fmap fst), <- size_dom.
  rewrite <- (size_list_to_set (C := gset nat)) by apply (rep_nodup_loc _ _ R).
  apply subseteq_size. intros l [[l' k] [-> Hin]]%elem_of_list_to_set%list_elem_of_fmap.
  apply elem_of_dom. destruct (dseg_lookup _ _ _ _ _ _ (rep_seg _ _ R) Hin) as (nd & Hnd & _).
  by exists nd.
Qed.

Lemma Rep_reachable c items : Rep c items → reachable c = items.*1.
Proof.
  intros R. unfold reachable. rewrite (rep_head _ _ R).
  eapply walk_dseg; [apply (rep_seg _ _ R)|by apply Rep_heap_bound].
Qed.

Lemma Rep_reachableKeys c items : Rep c items → reachableKeys c = items.*2.
Proof.
  intros R. unfold reachableKeys. rewrite (Rep_reachable _ _ R).
  eapply dseg_keys, (rep_seg _ _ R).
Qed.

Lemma Rep_last c items : Rep c items → last (reachable c) = tail c.
Proof.
  intros R. rewrite (Rep_reachable _ _ R), (rep_tail _ _ R), fmap_last.
  unfold final. by destruct (last items) as [[??]|].
Qed.

Lemma Rep_cache_node c items k l :
  Rep c items →
  cache c !! k = Some l ↔ l ∈ reachable c ∧ keyAt (heap c) l = Some k.
Proof.
  intros R. rewrite (rep_cache _ _ R), (Rep_reachable _ _ R). split.
  - intros Hin. split; [apply list_elem_of_fmap; by exists (l, k)|].
    destruct (dseg_lookup _ _ _ _ _ _ (rep_seg _ _ R) Hin) as (nd & Hnd & <-).
    unfold keyAt. by rewrite Hnd.
  - intros [[[l' k'] [-> Hin]]%list_elem_of_fmap Hk]. simpl in Hk.
    destruct (dseg_lookup _ _ _ _ _ _ (rep_seg _ _ R) Hin) as (nd & Hnd & <-).
    unfold keyAt in Hk. rewrite Hnd in Hk. by injection Hk as <-.
Qed.

(** *** Recency order *)

Lemma touchedAfter_snoc hist x e k :
  touchedAfter hist x e → e ≠ k → touchedAfter (hist ++ [k]) x e.
Proof.
  intros (h1 & h2 & -> & He & Hx) Hne. exists h1, (h2 ++ [k]).
  split; [by rewrite <- app_assoc|]. rewrite !elem_of_app, list_elem_of_singleton.
  split; [|by left]. intros [?|?]; done.
Qed.

Lemma touchedAfter_new hist e k :
  e ∈ hist → e ≠ k → touchedAfter (hist ++ [k]) k e.
Proof.
  intros (h1 & h2 & -> & He)%list_elem_of_split_r Hne. exists h1, (h2 ++ [k]).
  split; [by rewrite <- app_assoc|]. rewrite !elem_of_app, !list_elem_of_singleton.
  split; [|by right]. intros [?|?]; done.
Qed.

Lemma sorted_filter_snoc hist k ks :
  StronglySorted (touchedAfter hist) ks →
  StronglySorted (touchedAfter (hist ++ [k])) (filter (λ x, x ≠ k) ks).
Proof.
  induction 1 as [|x l Hl IH Hall]; [constructor|].
  destruct (decide (x = k)) as [->|Hne].
  - by rewrite filter_cons_False by (intros ?; done).
  - rewrite filter_cons_True by done. constructor; [done|].
    apply Forall_forall. intros e [He Hin]%list_elem_of_filter.
    apply touchedAfter_snoc; [|done]. by eapply Forall_forall in Hall.
Qed.

Lemma sorted_touch hist k ks :
  StronglySorted (touchedAfter hist) ks → (∀ x, x ∈ ks → x ∈ hist) →
  StronglySorted (touchedAfter (hist ++ [k])) (k :: filter (λ x, x ≠ k) ks).
Proof.
  intros Hs Hin. constructor; [by apply sorted_filter_snoc|].
  apply Forall_forall. intros e [He Hek]%list_elem_of_filter.
  apply touchedAfter_new; [by apply Hin|done].
Qed.

(** *** States reached from the empty cache *)

Lemma Inv_new cap : Inv cap [] (new cap) [].
Proof.
  split; simpl; try done.
  - apply Rep_new.
  - lia.
  - constructor.
Qed.

Lemma access_Inv cap hist c items k :
  (0 < cap)%nat → Inv cap hist c items →
  ∃ items', Inv cap (hist ++ [k]) (access k c).1 items' ∧
    match (access k c).2 with
    | Some e =>
        (k ∉ items.*2) ∧ length items = cap
        ∧ ∃ pre, items.*2 = pre ++ [e] ∧ items'.*2 = k :: pre
    | None =>
        (k ∈ items.*2 ∨ (length items < cap)%nat)
        ∧ ∀ x, x ∈ items'.*2 ↔ x = k ∨ x ∈ items.*2
    end.
Proof.
  intros Hcap [R Hmax Hlen Hord Hhist].
  pose proof (rep_nodup_key _ _ R) as Hnk.
  assert (Hhist' : ∀ ks' : list string, (∀ x, x ∈ ks' → x = k ∨ x ∈ items.*2) →
                          ∀ x, x ∈ ks' → x ∈ hist ++ [k]).
  { intros ks' Hks x Hx. rewrite elem_of_app, list_elem_of_singleton.
    destruct (Hks x Hx) as [->|Hin]; [by right|left; by apply Hhist]. }
  pose proof (sorted_touch _ k _ Hord Hhist) as Hord'.
  destruct (access_Rep c items k R)
    as [(a & n & b & -> & -> & R')
       |[(Hk & Hroom & -> & R')|(Hk & Hfull & pre & l & e & E & -> & R')]].
  - exists ((n, k) :: a ++ b).
    rewrite fmap_app in Hnk. simpl in Hnk.
    apply NoDup_app in Hnk as (_ & Hka & [Hkb _]%NoDup_cons).
    assert (Hka' : k ∉ a.*2) by (intros Hin; apply (Hka _ Hin); left).
    assert (Hmem : ∀ x, x ∈ ((n, k) :: a ++ b).*2 ↔ x = k ∨ x ∈ (a ++ (n, k) :: b).*2).
    { intros x. rewrite !fmap_cons, !fmap_app, !fmap_cons. simpl.
      rewrite elem_of_cons, !elem_of_app, elem_of_cons. tauto. }
    split; [split|].
    + done.
    + by rewrite access_maxSize.
    + revert Hlen. simpl. rewrite !length_app. simpl. lia.
    + rewrite fmap_app, filter_app in Hord'. simpl in Hord'.
      rewrite filter_cons_False in Hord' by (intros ?; done).
      rewrite !filter_ne_id in Hord' by done.
      by rewrite fmap_cons, fmap_app.
    + apply Hhist'. intros x. by rewrite Hmem.
    + split; [|done]. left. rewrite fmap_app, elem_of_app. right. left.
  - exists ((fresh c, k) :: items). split; [split|].
    + done.
    + by rewrite access_maxSize.
    + simpl. lia.
    + rewrite filter_ne_id in Hord' by done. done.
    + apply Hhist'. intros x. simpl. by rewrite elem_of_cons.
    + split; [right; lia|]. intros x. simpl. by rewrite elem_of_cons.
  - assert (Hlen' : length items = cap) by lia.
    destruct pre as [|[l0 k0] pre1].
    { simpl in E. injection E as _ _ ->. simpl in Hlen'. lia. }
    simpl in E. injection E as <- <- E. subst items.
    rewrite filter_ne_id in Hord' by done.
    rewrite fmap_app in Hord'. simpl in Hord'.
    rewrite fmap_app in Hk. simpl in Hk.
    exists ((fresh c, k) :: pre1). split; [split|].
    + done.
    + by rewrite access_maxSize.
    + revert Hlen'. rewrite length_app. simpl. lia.
    + simpl. change (k :: pre1.*2 ++ [e]) with ((k :: pre1.*2) ++ [e]) in Hord'.
      by apply StronglySorted_app_1_l in Hord'.
    + apply Hhist'. intros x. simpl. rewrite fmap_app, elem_of_cons, elem_of_app.
      tauto.
    + split; [by rewrite fmap_app|]. split; [done|].
      exists pre1.*2. by rewrite fmap_app.
Qed.

Lemma run_snoc hist k c : run (hist ++ [k]) c = (access k (run hist c)).1.
Proof. unfold run. by rewrite foldl_app. Qed.

Lemma run_Inv cap hist :
  (0 < cap)%nat → ∃ items, Inv cap hist (run hist (new cap)) items.
Proof.
  intros Hcap. induction hist as [|k hist IH] using rev_ind.
  - exists []. apply Inv_new.
  - destruct IH as [items I]. rewrite run_snoc.
    destruct (access_Inv _ _ _ _ k Hcap I) as (items' & I' & _). by exists items'.
Qed.
End LRUFacts.

(** ** The LRU index of the checker *)

Section LruTouch.
Import LRU LRUInv LRUFacts.

Lemma MAX_CACHE_SIZE_pos : (0 < MAX_CACHE_SIZE)%nat.
Proof. unfold MAX_CACHE_SIZE. lia. Qed.

(** The effect of [lruAccess] on the world, from the result of [access]. *)
Lemma lruAccess_eq k w :
  lruAccess k w =
  (Return tt,
   let w1 := setLruCache (access k (lruCache w)).1 w in
   match (access k (lruCache w)).2, idb w with
   | None, _ => w1
   | Some e, Some db =>
       setIdb (Some (delete e db))
              (addEvent (EvDelete e) (addEvent (EvOpenDB true) w1))
   | Some e, None =>
       addEvent (EvLog "Error removing from IndexedDB:")
                (addEvent (EvOpenDB false) w1)
   end).
Proof.
  unfold lruAccess, bind, gets. destruct (access k (lruCache w)) as [c' [e|]]; simpl.
  - unfold removeFromDB, tryCatch, bind, LRUCache_openDB. simpl.
    destruct (idb w) as [db|] eqn:E; simpl; [|done].
    unfold setIdb, addEvent, setLruCache. simpl. by rewrite E.
  - done.
Qed.

(** C3. After every touch of a key [k] in a cache grown from
    [new LRUCache(1000)] by any sequence [hist] of touches: the keys of the
    lookup map are exactly the keys of the nodes reachable from [head], each
    key is mapped to its own node and the walk ends at [tail]; at most 1000
    keys are held; a key is evicted only on a miss in a full cache, it is
    then the least recently touched key and the only one dropped, and
    [removeFromDB] is called for it (a delete on the store, or a logged
    error when the store cannot be opened). *)
Theorem lru_touch_invariant (hist : list string) (k : string) (w : World) :
  let c := run hist (new MAX_CACHE_SIZE) in
  let c' := (access k c).1 in
  let evicted := (access k c).2 in
  let w' := (lruAccess k (setLruCache c w)).2 in
  dom (cache c') = list_to_set (reachableKeys c')
  ∧ (∀ key l, cache c' !! key = Some l
              ↔ l ∈ reachable c' ∧ keyAt (heap c') l = Some key)
  ∧ last (reachable c') = tail c'
  ∧ (size (cache c') ≤ MAX_CACHE_SIZE)%nat
  ∧ match evicted with
    | Some e =>
        (k ∉ dom (cache c)) ∧ size (cache c) = MAX_CACHE_SIZE
        ∧ leastRecent hist (dom (cache c)) e
        ∧ dom (cache c') = {[k]} ∪ (dom (cache c) ∖ {[e]})
    | None =>
        (k ∈ dom (cache c) ∨ (size (cache c) < MAX_CACHE_SIZE)%nat)
        ∧ dom (cache c') = {[k]} ∪ dom (cache c)
    end
  ∧ lruCache w' = c'
  ∧ idb w' = match evicted with
             | Some e => delete e <$> idb w
             | None => idb w
             end
  ∧ trace w' = trace w ++
      match evicted, idb w with
      | Some e, Some _ => [EvOpenDB true; EvDelete e]
      | Some e, None => [EvOpenDB false; EvLog "Error removing from IndexedDB:"]
      | None, _ => []
      end.
Proof.
  intros c c' evicted w'.
  destruct (run_Inv MAX_CACHE_SIZE hist MAX_CACHE_SIZE_pos) as [items I].
  fold c in I.
  destruct (access_Inv _ _ _ _ k MAX_CACHE_SIZE_pos I) as (items' & I' & Hstep).
  fold c' in I'. fold evicted in Hstep.
  pose proof (inv_rep _ _ _ _ I) as R. pose proof (inv_rep _ _ _ _ I') as R'.
  split; [by rewrite (Rep_dom _ _ R'), (Rep_reachableKeys _ _ R')|].
  split; [intros key l; by apply Rep_cache_node with items'|].
  split; [by apply Rep_last with items'|].
  split; [rewrite (Rep_size _ _ R'); apply (inv_len _ _ _ _ I')|].
  split.
  - rewrite (Rep_dom _ _ R), (Rep_dom _ _ R'), (Rep_size _ _ R).
    destruct evicted as [e|].
    + destruct Hstep as (Hk & Hlen & pre & Hpre & Hpre').
      pose proof (rep_nodup_key _ _ R) as Hnd. rewrite Hpre in Hnd.
      apply NoDup_app in Hnd as (_ & Hpe & _).
      assert (He : e ∉ pre) by (intros Hin; apply (Hpe _ Hin); left).
      split; [by rewrite elem_of_list_to_set|]. split; [done|]. split.
      * split; [rewrite elem_of_list_to_set, Hpre, elem_of_app; right; left|].
        intros x Hx Hne. rewrite elem_of_list_to_set, Hpre, elem_of_app in Hx.
        destruct Hx as [Hx|Hx%list_elem_of_singleton]; [|done].
        pose proof (inv_order _ _ _ _ I) as Hord. rewrite Hpre in Hord.
        eapply StronglySorted_app_1_elem_of; [done..|left].
      * rewrite Hpre, Hpre'. apply set_eq. intros x.
        rewrite elem_of_union, elem_of_difference, !elem_of_list_to_set,
          elem_of_cons, elem_of_app, !elem_of_singleton, list_elem_of_singleton.
        split; [intros [-> | Hx]|intros [-> | [[Hx | ->] Hne]]]; try tauto.
        right. split; [by left|]. by intros ->.
    + destruct Hstep as [Hk Hmem]. split.
      * destruct Hk as [Hk|Hk]; [left; by rewrite elem_of_list_to_set|by right].
      * apply set_eq. intros x.
        by rewrite elem_of_union, !elem_of_list_to_set, elem_of_singleton, Hmem.
  - subst w'. rewrite lruAccess_eq. simpl. fold c'. fold evicted.
    destruct evicted as [e|], (idb w) as [db|] eqn:E; simpl;
      rewrite <- ?app_assoc, ?app_nil_r; done.
Qed.

End LruTouch.

(** ** The digest *)

Section Digest.

Lemma chars_ofChars l : Str.chars (Str.ofChars l) = l.
Proof. apply list_ascii_of_string_of_list_ascii. Qed.

Lemma ofChars_chars s : Str.ofChars (Str.chars s) = s.
Proof. apply string_of_list_ascii_of_string. Qed.

Lemma chars_append s1 s2 : Str.chars (s1 +:+ s2) = Str.chars s1 ++ Str.chars s2.
Proof. induction s1 as [|c s1 IH]; simpl; [done|]. by rewrite <- IH. Qed.

Lemma chars_length s : length (Str.chars s) = String.length s.
Proof. induction s as [|c s IH]; simpl; [done|]. by rewrite IH. Qed.

Lemma occursIn_length needle hay :
  Str.occursIn needle hay → (String.length needle ≤ String.length hay)%nat.
Proof.
  intros (pre & post & E). rewrite <- !chars_length, E, !length_app. lia.
Qed.

Lemma land_255_byte x : 0 ≤ Z.land x 255 < 256.
Proof. change 255 with (Z.ones 8). rewrite Z.land_ones by lia. apply Z.mod_pos_bound. lia. Qed.

Lemma stateBytes_length st : length (Sha1.stateBytes st) = 20%nat.
Proof. done. Qed.

Lemma stateBytes_bytes st : Forall (λ b, 0 ≤ b < 256) (Sha1.stateBytes st).
Proof.
  unfold Sha1.stateBytes, Sha1.wordBytes. simpl.
  repeat (constructor; [apply land_255_byte|]). constructor.
Qed.

Lemma sha1_length p : length (Sha1.sha1 p) = 20%nat.
Proof. apply stateBytes_length. Qed.

Lemma sha1_bytes p : Forall (λ b, 0 ≤ b < 256) (Sha1.sha1 p).
Proof. apply stateBytes_bytes. Qed.

Lemma hexDigit_upper n :
  0 ≤ n < 16 → Str.isUpperHex (Str.upperChar (hexDigit n)) = true.
Proof.
  intros Hn. unfold hexDigit.
  assert (Z.to_nat n < 16)%nat as Hm by lia. clear Hn.
  generalize dependent (Z.to_nat n). intros m Hm.
  do 16 (destruct m as [|m]; [vm_compute; reflexivity|]). lia.
Qed.

Lemma byteHex_upper b :
  0 ≤ b < 256 →
  Forall (λ c, Str.isUpperHex c = true) (map Str.upperChar (byteHex b)).
Proof.
  intros Hb. unfold byteHex. simpl. repeat constructor.
  - apply hexDigit_upper. rewrite Z.shiftr_div_pow2 by lia.
    change (2 ^ 4) with 16. split; [apply Z.div_pos; lia|].
    apply Z.div_lt_upper_bound; lia.
  - apply hexDigit_upper. change 15 with (Z.ones 4).
    rewrite Z.land_ones by lia. apply Z.mod_pos_bound. lia.
Qed.

Lemma passwordHash_chars p :
  Str.chars (passwordHash p)
  = map Str.upperChar (flat_map byteHex (Sha1.sha1 p)).
Proof.
  unfold passwordHash, Str.toUpperCase, bytesToHex. by rewrite !chars_ofChars.
Qed.

Lemma flat_map_byteHex_length bs :
  length (flat_map byteHex bs) = (2 * length bs)%nat.
Proof. induction bs as [|b bs IH]; simpl; [done|]. rewrite IH. lia. Qed.

(** The digest is 40 upper-case hexadecimal characters. *)
Lemma passwordHash_length p : String.length (passwordHash p) = 40%nat.
Proof.
  rewrite <- chars_length, passwordHash_chars, length_map,
    flat_map_byteHex_length, sha1_length. done.
Qed.

Lemma passwordHash_hex p :
  Forall (λ c, Str.isUpperHex c = true) (Str.chars (passwordHash p)).
Proof.
  rewrite passwordHash_chars. generalize (sha1_bytes p).
  induction 1 as [|b bs Hb _ IH]; [constructor|].
  change (flat_map byteHex (b :: bs)) with (byteHex b ++ flat_map byteHex bs).
  rewrite map_app. apply Forall_app. split; [by apply byteHex_upper|done].
Qed.

Lemma hashPrefix_chars p :
  Str.chars (hashPrefix p) = take 5 (Str.chars (passwordHash p)).
Proof. unfold hashPrefix, Str.substring. by rewrite chars_ofChars. Qed.

Lemma hashSuffix_chars p :
  Str.chars (hashSuffix p) = drop 5 (Str.chars (passwordHash p)).
Proof. unfold hashSuffix, Str.substringFrom. by rewrite chars_ofChars. Qed.

Lemma hashPrefix_length p : String.length (hashPrefix p) = 5%nat.
Proof.
  rewrite <- chars_length, hashPrefix_chars, length_take, chars_length,
    passwordHash_length. done.
Qed.

Lemma hashSuffix_length p : String.length (hashSuffix p) = 35%nat.
Proof.
  rewrite <- chars_length, hashSuffix_chars, length_drop, chars_length,
    passwordHash_length. done.
Qed.

Lemma hash_split p : hashPrefix p +:+ hashSuffix p = passwordHash p.
Proof.
  rewrite <- (ofChars_chars (_ +:+ _)), chars_append, hashPrefix_chars,
    hashSuffix_chars, take_drop. apply ofChars_chars.
Qed.

(** C9. The digest of a password is a function of the password alone
    (equal passwords give equal prefix and suffix, and no state is read or
    written: [hashPrefix] and [hashSuffix] take no world); the SHA-1 value
    has 20 bytes (160 bits), its upper-case hex form has 40 hexadecimal
    characters; the prefix is its first five characters and the suffix the
    remaining 35. *)
Theorem digest_deterministic_split (p q : string) :
  (p = q → hashPrefix p = hashPrefix q ∧ hashSuffix p = hashSuffix q)
  ∧ length (Sha1.sha1 p) = 20%nat
  ∧ String.length (passwordHash p) = 40%nat
  ∧ Forall (λ c, Str.isUpperHex c = true) (Str.chars (passwordHash p))
  ∧ Str.chars (hashPrefix p) = take 5 (Str.chars (passwordHash p))
  ∧ Str.chars (hashSuffix p) = drop 5 (Str.chars (passwordHash p))
  ∧ String.length (hashPrefix p) = 5%nat
  ∧ String.length (hashSuffix p) = 35%nat
  ∧ hashPrefix p +:+ hashSuffix p = passwordHash p.
Proof.
  split; [by intros ->|].
  split; [apply sha1_length|]. split; [apply passwordHash_length|].
  split; [apply passwordHash_hex|]. split; [apply hashPrefix_chars|].
  split; [apply hashSuffix_chars|]. split; [apply hashPrefix_length|].
  split; [apply hashSuffix_length|apply hash_split].
Qed.

Lemma digest_deterministic_split_witness :
  hashPrefix "password" = hashPrefix "password"
  ∧ hashSuffix "password" = hashSuffix "password".
Proof.
  exact (proj1 (digest_deterministic_split "password" "password") eq_refl).
Defined.

(** The digest never occurs in a request for its own prefix: the URL is
    42 characters long and its fourth one is no hexadecimal digit. *)
Lemma hash_not_in_url p prefix :
  String.length prefix = 5%nat →
  ¬ Str.occursIn (passwordHash p) (HIBP_API_URL +:+ prefix).
Proof.
  intros Hlen (pre & post & E).
  assert (Hl : (length pre + length post = 2)%nat).
  { apply (f_equal length) in E. revert E.
    rewrite chars_append, !length_app, !chars_length, passwordHash_length, Hlen.
    simpl. lia. }
  assert (H3 : Str.chars (HIBP_API_URL +:+ prefix) !! 3%nat = Some "p"%char).
  { by rewrite chars_append. }
  rewrite E, lookup_app_r, lookup_app_l in H3
    by (rewrite ?chars_length, ?passwordHash_length; lia).
  pose proof (passwordHash_hex p) as Hhex.
  rewrite Forall_lookup in Hhex. apply Hhex in H3. done.
Qed.

Lemma hash_not_in_headers p name value :
  (name, value) ∈ userAgent →
  ¬ Str.occursIn (passwordHash p) name ∧ ¬ Str.occursIn (passwordHash p) value.
Proof.
  intros [= -> ->]%list_elem_of_singleton.
  split; intros H%occursIn_length; rewrite passwordHash_length in H;
    simpl in H; lia.
Qed.

End Digest.

(** ** The storage methods, step by step *)

Section Storage.

Lemma checkPassword_eq p o :
  checkPassword p o = checkWith (hashPrefix p) (hashSuffix p) o.
Proof. reflexivity. Qed.

Lemma initDB_eq w :
  initDB w =
  (Return tt,
   if dbReady w then w
   else match idb w with
        | Some _ => setDbReady true (addEvent (EvOpenDB true) w)
        | None =>
            addEvent (EvLog "IndexedDB not available, operating without cache persistence:")
                     (addEvent (EvOpenDB false) w)
        end).
Proof. by destruct w as [lru last [|] [db|] clk tr hst]. Qed.

Lemma getCacheEntry_eq prefix w :
  getCacheEntry prefix w =
  match idb w with
  | None =>
      (Return None,
       addEvent (EvLog "Error reading from cache:") (addEvent (EvOpenDB false) w))
  | Some db =>
      let w1 := addEvent (EvGet prefix) (addEvent (EvOpenDB true) w) in
      if readError (host w) then (Throw (Err "DOMException" "request.error"), w1)
      else match db !! prefix with
           | None => (Return None, w1)
           | Some entry =>
               if CACHE_TTL_MS <? clock w - timestamp entry
               then (Return None,
                     setIdb (Some (delete prefix db)) (addEvent (EvDelete prefix) w1))
               else (Return (Some entry), w1)
           end
  end.
Proof.
  destruct w as [lru last ready [db|] clk tr [rerr hf net]]; [|done].
  unfold getCacheEntry, readEntry, bind, tryCatch, openDB, gets, emit, modify. simpl.
  destruct rerr; [done|]. simpl.
  destruct (db !! prefix) as [entry|]; [|done]. simpl.
  by destruct (CACHE_TTL_MS <? clk - timestamp entry).
Qed.

Lemma setCacheEntry_eq entry w :
  setCacheEntry entry w =
  (Return tt,
   match idb w with
   | Some db =>
       setIdb (Some (<[entryPrefix entry := entry]> db))
              (addEvent (EvPut (entryPrefix entry)) (addEvent (EvOpenDB true) w))
   | None =>
       addEvent (EvLog "Error writing to cache:") (addEvent (EvOpenDB false) w)
   end).
Proof. by destruct w as [lru last ready [db|] clk tr hst]. Qed.


Lemma clearCache_eq w :
  clearCache w =
  (Return tt,
   match idb w with
   | Some _ =>
       setLruCache (LRU.new MAX_CACHE_SIZE)
         (setIdb (Some ∅) (addEvent EvClear (addEvent (EvOpenDB true) w)))
   | None =>
       addEvent (EvLog "Error clearing cache:") (addEvent (EvOpenDB false) w)
   end).
Proof. by destruct w as [lru last ready [db|] clk tr hst]. Qed.

(** [checkWith] in terms of its parts. *)
Lemma checkWith_eq prefix suffix o w :
  checkWith prefix suffix o w =
  let w1 := (initDB w).2 in
  let w2 := (lruAccess prefix w1).2 in
  match getCacheEntry prefix w2 with
  | (Throw _, w3) => (Return errorResult, addEvent (EvLog "Breach check error:") w3)
  | (Return (Some entry), w3) => (Return (verdict suffix (hashes entry) true), w3)
  | (Return None, w3) =>
      if negb (default true (allowNetwork o)) || negb (hasFetch (host w3))
      then (Return offlineResult, w3)
      else
        match fetchFromHIBP prefix (default 5000 (timeout o)) w3 with
        | (Return bucket, w4) =>
            (Return (verdict suffix bucket false),
             (setCacheEntry (Entry prefix bucket (clock w4)) w4).2)
        | (Throw _, w4) => (Return offlineResult, w4)
        end
  end.
Proof.
  unfold checkWith, tryCatch, bind, gets, ret. cbv zeta.
  destruct (initDB w) as [[[]|e1] w1] eqn:E1;
    [|rewrite initDB_eq in E1; discriminate].
  simpl.
  destruct (lruAccess prefix w1) as [[[]|e2] w2] eqn:E2;
    [|rewrite lruAccess_eq in E2; discriminate].
  simpl. destruct (getCacheEntry prefix w2) as [[[entry|]|e3] w3]; [done| |done].
  destruct (default true (allowNetwork o)); simpl; [|done].
  destruct (hasFetch (host w3)); simpl; [|done].
  destruct (fetchFromHIBP prefix (default 5000 (timeout o)) w3) as [[bucket|e4] w4];
    [|done].
  rewrite setCacheEntry_eq. done.
Qed.

End Storage.

(** ** The retry loop *)

Section Network.

Lemma netFrame_refl w : netFrame w w [].
Proof. unfold netFrame. by rewrite app_nil_r. Qed.

Lemma netFrame_trans w w1 w2 evs1 evs2 :
  netFrame w w1 evs1 → netFrame w1 w2 evs2 → netFrame w w2 (evs1 ++ evs2).
Proof.
  intros (A1 & B1 & C1 & D1 & E1) (A2 & B2 & C2 & D2 & E2).
  unfold netFrame. rewrite A2, B2, C2, D2, E2, E1, app_assoc. done.
Qed.

Lemma fetches_app evs1 evs2 : fetches (evs1 ++ evs2) = fetches evs1 ++ fetches evs2.
Proof. apply filter_app. Qed.

Lemma sent_netFrame w w' evs :
  netFrame w w' evs → sent w' = (sent w + length (fetches evs))%nat.
Proof.
  intros (_ & _ & _ & _ & H). unfold sent. rewrite H.
  fold (fetches (trace w ++ evs)). rewrite fetches_app, length_app. done.
Qed.

Lemma sleep_spec ms w :
  ∃ w', sleep ms w = (Return tt, w') ∧ netFrame w w' [EvSleep ms].
Proof. destruct w. eexists. split; [reflexivity|]. by unfold netFrame. Qed.

Lemma rateLimit_spec w :
  ∃ w' evs, rateLimit w = (Return tt, w') ∧ netFrame w w' evs ∧ fetches evs = [].
Proof.
  destruct w as [lru last ready db clk tr hst].
  unfold rateLimit, bind, gets, modify. simpl.
  destruct (clk - last <? RATE_LIMIT_MS).
  - eexists _, [EvSleep _]. split; [reflexivity|]. by unfold netFrame.
  - eexists _, []. split; [reflexivity|]. unfold netFrame. simpl.
    by rewrite app_nil_r.
Qed.

Lemma fetch_spec url headers t w :
  ∃ w', netFrame w w' [EvFetch url headers]
    ∧ fetch url headers t w =
      (let reply := network (host w) (sent w) in
       if t <=? latency reply then Throw AbortError
       else match outcome reply with
            | NetReject e => Throw e
            | NetRespond status body => Return (status, body)
            end, w').
Proof.
  destruct w as [lru last ready db clk tr hst]. unfold fetch. simpl.
  destruct (t <=? latency _).
  - eexists. split; [|reflexivity]. by unfold netFrame.
  - destruct (outcome _); (eexists; split; [|reflexivity]); by unfold netFrame.
Qed.

(** One iteration: it never throws, sends exactly one request, and yields
    a bucket exactly when the reply is a success in time. *)
Lemma attemptFetch_spec prefix t att w :
  ∃ a w' evs,
    attemptFetch prefix t att w = (Return a, w')
    ∧ netFrame w w' evs
    ∧ fetches evs = [requestFor prefix]
    ∧ match a with
      | Fetched _ =>
          replyFails t (network (host w) (sent w)) = false
          ∧ retryable t (network (host w) (sent w)) = false
      | Throttled =>
          replyFails t (network (host w) (sent w)) = true
          ∧ (t <=? latency (network (host w) (sent w))) = false
          ∧ retryable t (network (host w) (sent w)) = true
      | Caught e stop =>
          replyFails t (network (host w) (sent w)) = true
          ∧ (stop = false → (t <=? latency (network (host w) (sent w))) = false)
          ∧ ((t <=? latency (network (host w) (sent w))) = true
             → e = AbortError ∧ stop = true)
          ∧ retryable t (network (host w) (sent w)) = negb stop
      end.
Proof.
  unfold attemptFetch, tryCatch, bind.
  destruct (rateLimit_spec w) as (w1 & evs1 & -> & F1 & N1).
  destruct (fetch_spec (HIBP_API_URL +:+ prefix) userAgent t w1) as (w2 & F2 & ->).
  pose proof (netFrame_trans _ _ _ _ _ F1 F2) as F12.
  assert (Hf12 : fetches (evs1 ++ [requestFor prefix]) = [requestFor prefix]).
  { by rewrite fetches_app, N1. }
  assert (Hsnoc : ∀ ms, fetches ((evs1 ++ [requestFor prefix]) ++ [EvSleep ms])
                        = [requestFor prefix]).
  { intros ms. by rewrite fetches_app, Hf12. }
  rewrite (sent_netFrame _ _ _ F1), N1, Nat.add_0_r.
  destruct F1 as (_ & _ & _ & -> & _). cbv zeta. unfold replyFails, retryable.
  destruct (t <=? latency (network (host w) (sent w))) eqn:Et.
  { exists (Caught AbortError true), w2, (evs1 ++ [requestFor prefix]). simpl.
    split; [done|]. split; [exact F12|]. split; [exact Hf12|]. done. }
  destruct (outcome (network (host w) (sent w))) as [e|status body].
  - destruct (String.eqb (name e) "AbortError") eqn:En.
    + exists (Caught e true), w2, (evs1 ++ [requestFor prefix]). simpl.
      split; [done|]. split; [exact F12|]. split; [exact Hf12|]. done.
    + unfold ret. destruct (att <? Z.of_nat MAX_RETRIES - 1).
      * destruct (sleep_spec (backoff att) w2) as (w3 & -> & F3).
        exists (Caught e false), w3, ((evs1 ++ [requestFor prefix]) ++ [EvSleep (backoff att)]).
        split; [done|]. split; [by eapply netFrame_trans|]. by rewrite Hsnoc.
      * exists (Caught e false), w2, (evs1 ++ [requestFor prefix]). done.
  - destruct (responseOk status) eqn:Eok; cbn [negb].
    + exists (Fetched (parseHashes body)), w2, (evs1 ++ [requestFor prefix]). done.
    + destruct (status =? 429).
      * unfold bind, ret. destruct (sleep_spec (backoff att) w2) as (w3 & -> & F3).
        exists Throttled, w3, ((evs1 ++ [requestFor prefix]) ++ [EvSleep (backoff att)]).
        split; [done|]. split; [by eapply netFrame_trans|]. by rewrite Hsnoc.
      * unfold throw, ret. cbn [name String.eqb Ascii.eqb Bool.eqb].
        destruct (att <? Z.of_nat MAX_RETRIES - 1).
        -- destruct (sleep_spec (backoff att) w2) as (w3 & -> & F3).
           eexists (Caught _ false), w3, ((evs1 ++ [requestFor prefix]) ++ [EvSleep (backoff att)]).
           split; [done|]. split; [by eapply netFrame_trans|]. by rewrite Hsnoc.
        -- eexists (Caught _ false), w2, (evs1 ++ [requestFor prefix]). done.
Qed.


(** The whole loop: between one and [remaining] requests, all for the same
    prefix; it throws when every reply it consumes fails; it stops after
    one request when the first reply is a success or runs into the timer. *)
Lemma fetchLoop_spec remaining : ∀ att lastError prefix t w,
  ∃ r w' evs m,
    fetchLoop remaining att lastError prefix t w = (r, w')
    ∧ netFrame w w' evs
    ∧ fetches evs = replicate m (requestFor prefix)
    ∧ (m ≤ remaining)%nat
    ∧ ((0 < remaining)%nat → (1 ≤ m)%nat)
    ∧ ((∀ i, (sent w ≤ i < sent w + remaining)%nat →
             replyFails t (network (host w) i) = true) → ∃ e, r = Throw e)
    ∧ ((0 < remaining)%nat → replyFails t (network (host w) (sent w)) = false →
       m = 1%nat ∧ ∃ bucket, r = Return bucket)
    ∧ ((0 < remaining)%nat →
       (t <=? latency (network (host w) (sent w))) = true →
       m = 1%nat ∧ r = Throw AbortError)
    ∧ ((0 < remaining)%nat →
       retryable t (network (host w) (sent w)) = false → m = 1%nat)
    ∧ ((1 < remaining)%nat →
       retryable t (network (host w) (sent w)) = true → (2 ≤ m)%nat).
Proof.
  induction remaining as [|n IH]; intros att lastError prefix t w.
  - exists (Throw (default (Err "Error" "Failed to fetch from HIBP") lastError)), w, [], 0%nat.
    split; [done|]. split; [apply netFrame_refl|]. split; [done|].
    split; [done|]. split; [lia|]. split; [eauto|]. repeat split; intros; lia.
  - simpl. unfold bind.
    destruct (attemptFetch_spec prefix t att w) as (a & w1 & evs1 & -> & F1 & N1 & Ha).
    pose proof (sent_netFrame _ _ _ F1) as Hs1. rewrite N1 in Hs1. simpl in Hs1.
    assert (Hh1 : host w1 = host w) by apply F1.
    assert (Hnext : ∀ lastError',
      ∃ r w' evs m,
        fetchLoop n (att + 1) lastError' prefix t w1 = (r, w')
        ∧ netFrame w w' evs
        ∧ fetches evs = replicate m (requestFor prefix)
        ∧ (m ≤ S n)%nat ∧ (1 ≤ m)%nat
        ∧ ((∀ i, (sent w ≤ i < sent w + S n)%nat →
                 replyFails t (network (host w) i) = true) → ∃ e, r = Throw e)
        ∧ ((1 < S n)%nat → (2 ≤ m)%nat)).
    { intros lastError'.
      destruct (IH (att + 1) lastError' prefix t w1)
        as (r & w2 & evs2 & m2 & E2 & F2 & N2 & Hm2 & Hm2' & Hfail & _).
      exists r, w2, (evs1 ++ evs2), (S m2). split; [done|].
      split; [by eapply netFrame_trans|].
      split; [by rewrite fetches_app, N1, N2|]. split; [lia|]. split; [lia|].
      split; [|intros Hn; assert (1 ≤ m2)%nat by (apply Hm2'; lia); lia].
      intros Hall. apply Hfail. intros i Hi. rewrite Hh1. apply Hall. lia. }

    destruct a as [bucket| |e [|]].
    + exists (Return bucket), w1, evs1, 1%nat. unfold ret.
      split; [done|]. split; [done|]. split; [done|]. split; [lia|]. split; [lia|].
      destruct Ha as [Hf Hre]. split; [|split; [|split; [|split]]].
      * intros Hall. rewrite Hall in Hf by lia. done.
      * intros _ _. eauto.
      * intros _ Hlate. unfold replyFails in Hf. by rewrite Hlate in Hf.
      * done.
      * intros _ Hre'. by rewrite Hre in Hre'.
    + destruct Ha as (Hf & Hl & Hre).
      destruct (Hnext lastError)
        as (r & w2 & evs & m & -> & F & N & Hm & Hm' & Hfail & Hm2).
      exists r, w2, evs, m. split; [done|]. split; [done|]. split; [done|].
      split; [done|]. split; [done|]. split; [done|].
      split; [intros _ Hok; by rewrite Hok in Hf|].
      split; [intros _ Hlate; by rewrite Hlate in Hl|].
      split; [intros _ Hre'; by rewrite Hre in Hre'|]. intros Hn _. by apply Hm2.
    + destruct Ha as (Hf & _ & Hab & Hre).
      exists (Throw e), w1, evs1, 1%nat. unfold throw.
      split; [done|]. split; [done|]. split; [done|]. split; [lia|]. split; [lia|].
      split; [eauto|]. split; [|split; [|split]].
      * intros _ Hok. by rewrite Hok in Hf.
      * intros _ Hlate. split; [done|]. by destruct (Hab Hlate) as [-> _].
      * done.
      * intros _ Hre'. by rewrite Hre in Hre'.
    + destruct Ha as (Hf & Hl & _ & Hre). specialize (Hl eq_refl).
      destruct (Hnext (Some e))
        as (r & w2 & evs & m & -> & F & N & Hm & Hm' & Hfail & Hm2).
      exists r, w2, evs, m. split; [done|]. split; [done|]. split; [done|].
      split; [done|]. split; [done|]. split; [done|].
      split; [intros _ Hok; by rewrite Hok in Hf|].
      split; [intros _ Hlate; by rewrite Hlate in Hl|].
      split; [intros _ Hre'; by rewrite Hre in Hre'|]. intros Hn _. by apply Hm2.
Qed.

Lemma fetchFromHIBP_spec prefix t w :
  ∃ r w' evs m,
    fetchFromHIBP prefix t w = (r, w')
    ∧ netFrame w w' evs
    ∧ fetches evs = replicate m (requestFor prefix)
    ∧ (1 ≤ m ≤ MAX_RETRIES)%nat
    ∧ ((∀ i, (sent w ≤ i < sent w + MAX_RETRIES)%nat →
             replyFails t (network (host w) i) = true) → ∃ e, r = Throw e)
    ∧ (replyFails t (network (host w) (sent w)) = false →
       m = 1%nat ∧ ∃ bucket, r = Return bucket)
    ∧ ((t <=? latency (network (host w) (sent w))) = true →
       m = 1%nat ∧ r = Throw AbortError)
    ∧ (retryable t (network (host w) (sent w)) = false → m = 1%nat)
    ∧ (retryable t (network (host w) (sent w)) = true → (2 ≤ m)%nat).
Proof.
  destruct (fetchLoop_spec MAX_RETRIES 0 None prefix t w)
    as (r & w' & evs & m & E & F & N & Hm & Hm' & Hfail & Hok & Hlate & Hone & Hre).
  assert (H0 : (0 < MAX_RETRIES)%nat) by (unfold MAX_RETRIES; lia).
  assert (H1 : (1 < MAX_RETRIES)%nat) by (unfold MAX_RETRIES; lia).
  exists r, w', evs, m. split; [done|]. split; [done|]. split; [done|].
  split; [split; [by apply Hm'|done]|]. split; [done|].
  split; [by apply Hok|]. split; [by apply Hlate|].
  split; [by apply Hone|by apply Hre].
Qed.

End Network.

(** ** The phases of [checkPassword] *)

Section Phases.

Lemma added_app w w' evs : trace w' = trace w ++ evs → added w w' = evs.
Proof. intros E. unfold added. rewrite E. apply drop_app_length. Qed.

Lemma failedOpens_app evs1 evs2 :
  failedOpens (evs1 ++ evs2) = (failedOpens evs1 + failedOpens evs2)%nat.
Proof. unfold failedOpens. by rewrite filter_app, length_app. Qed.

Lemma freshEntry_delete w k e db :
  idb w = Some db →
  freshEntry w k = None → freshEntry (setIdb (Some (delete e db)) w) k = None.
Proof.
  unfold freshEntry. intros ->. simpl.
  destruct (decide (e = k)) as [->|Hne].
  - by rewrite lookup_delete_eq.
  - by rewrite lookup_delete_ne.
Qed.

(** [initDB] and the LRU touch: no request, no clock tick, and nothing is
    added to the store. *)
Lemma prelude_spec prefix w :
  let w2 := (lruAccess prefix (initDB w).2).2 in
  host w2 = host w ∧ clock w2 = clock w
  ∧ (∃ evs, trace w2 = trace w ++ evs ∧ fetches evs = []
            ∧ (idb w = None → dbReady w = false → (1 ≤ failedOpens evs)%nat))
  ∧ (idb w = None → idb w2 = None ∧ dbReady w2 = dbReady w)
  ∧ (is_Some (idb w2) ↔ is_Some (idb w))
  ∧ (freshEntry w prefix = None → freshEntry w2 prefix = None).
Proof.
  rewrite initDB_eq, lruAccess_eq.
  destruct w as [lru last ready db clk tr hst]. simpl.
  destruct ready, db as [db|]; simpl;
    destruct (LRU.access prefix lru) as [c' [e|]]; simpl;
    (split; [done|]); (split; [done|]);
    (split; [eexists; split;
               [rewrite <- ?app_assoc; simpl; try reflexivity;
                by rewrite app_nil_r|
                split; [done|intros; try done; unfold failedOpens; simpl; lia]]|]);
    (split; [done|]); (split; [done|]); try done.
  all: unfold freshEntry; simpl;
    (destruct (decide (e = prefix)) as [->|Hne];
       [by rewrite lookup_delete_eq|by rewrite lookup_delete_ne]).
Qed.

(** A cold, readable store: [getCacheEntry] answers [null]. *)
Lemma getCacheEntry_miss prefix w :
  freshEntry w prefix = None → readable w →
  ∃ w' evs,
    getCacheEntry prefix w = (Return None, w')
    ∧ host w' = host w ∧ clock w' = clock w
    ∧ trace w' = trace w ++ evs ∧ fetches evs = []
    ∧ (idb w = None → idb w' = None ∧ dbReady w' = dbReady w
                      ∧ failedOpens evs = 1%nat).
Proof.
  rewrite getCacheEntry_eq. unfold freshEntry, readable.
  destruct (idb w) as [db|] eqn:Edb.
  - intros Hfresh Hread. rewrite Hread by done. cbv zeta.
    destruct (db !! prefix) as [entry|].
    + destruct (CACHE_TTL_MS <? clock w - timestamp entry); [|done].
      eexists _, _. split; [reflexivity|]. simpl. rewrite <- !app_assoc.
      split; [done|]. split; [done|]. split; [reflexivity|]. done.
    + eexists _, _. split; [reflexivity|]. simpl. rewrite <- !app_assoc.
      split; [done|]. split; [done|]. split; [reflexivity|]. done.
  - intros _ _. eexists _, _. split; [reflexivity|]. simpl. rewrite <- !app_assoc.
    split; [done|]. split; [done|]. split; [reflexivity|]. done.
Qed.

End Phases.

(** ** [checkPassword] as a whole *)

Section Check.

Lemma evolves_refl w : evolves w w [].
Proof. unfold evolves. by rewrite app_nil_r. Qed.

Lemma evolves_trans w w1 w2 evs1 evs2 :
  evolves w w1 evs1 → evolves w1 w2 evs2 → evolves w w2 (evs1 ++ evs2).
Proof.
  intros (H1 & T1 & N1) (H2 & T2 & N2). unfold evolves.
  rewrite H2, H1, T2, T1, app_assoc. split; [done|]. split; [done|].
  intros Hn. destruct (N1 Hn) as [Hn1 Hr1]. destruct (N2 Hn1) as [Hn2 Hr2].
  split; [done|congruence].
Qed.

Lemma netFrame_evolves w w' evs : netFrame w w' evs → evolves w w' evs.
Proof.
  intros (_ & Hr & Hi & Hh & Ht). split; [done|]. split; [done|].
  intros Hn. split; [congruence|done].
Qed.

Lemma prelude_evolves prefix w :
  ∃ evs, evolves w (lruAccess prefix (initDB w).2).2 evs ∧ fetches evs = []
         ∧ (idb w = None → dbReady w = false → (1 ≤ failedOpens evs)%nat).
Proof.
  destruct (prelude_spec prefix w) as (Hh & _ & (evs & Ht & Hf & Ho) & Hn & _).
  exists evs. split; [|done]. by split.
Qed.

Lemma getCacheEntry_evolves prefix w :
  ∃ c w' evs,
    getCacheEntry prefix w = (c, w') ∧ evolves w w' evs ∧ fetches evs = []
    ∧ (idb w = None → c = Return None ∧ failedOpens evs = 1%nat)
    ∧ ((∃ e, c = Throw e) ↔ is_Some (idb w) ∧ readError (host w) = true).
Proof.
  rewrite getCacheEntry_eq. destruct (idb w) as [db|] eqn:Edb; cbv zeta.
  - destruct (readError (host w)) eqn:Er.
    { eexists _, _, _. split; [reflexivity|]. unfold evolves. simpl.
      rewrite <- !app_assoc. split; [split; [done|split; [reflexivity|congruence]]|].
      split; [done|]. split; [congruence|]. split; [eauto|eauto]. }
    assert (Hno : ∀ r : option CacheEntry,
              (∃ e, Return r = Throw e) ↔ is_Some (Some db) ∧ false = true).
    { intros r. split; [by intros [e ?]|by intros [_ ?]]. }
    destruct (db !! prefix) as [entry|];
      [destruct (CACHE_TTL_MS <? clock w - timestamp entry)|].
    all: eexists _, _, _; (split; [reflexivity|]); unfold evolves; simpl;
      rewrite <- !app_assoc;
      (split; [split; [done|split; [reflexivity|congruence]]|]);
      (split; [done|]); (split; [congruence|]); apply Hno.
  - eexists _, _, _. split; [reflexivity|]. unfold evolves. simpl.
    rewrite <- !app_assoc. split; [split; [done|split; [reflexivity|done]]|].
    split; [done|]. split; [done|].
    split; [by intros [e ?]|by intros [[? ?] _]].
Qed.

Lemma setCacheEntry_evolves entry w :
  ∃ evs, evolves w (setCacheEntry entry w).2 evs ∧ fetches evs = [].
Proof.
  rewrite setCacheEntry_eq. destruct (idb w) as [db|] eqn:Edb; simpl.
  - eexists. unfold evolves. simpl. rewrite <- !app_assoc.
    split; [split; [done|split; [reflexivity|congruence]]|done].
  - eexists. unfold evolves. simpl. rewrite <- !app_assoc.
    split; [split; [done|split; [reflexivity|done]]|done].
Qed.

(** Every call resolves; what it sends are at most three requests for the
    prefix; the result has one of three shapes; the outer [catch] answers
    exactly when the store's read fails. *)
Lemma checkWith_shape prefix suffix o w :
  ∃ r w' evs m,
    checkWith prefix suffix o w = (Return r, w')
    ∧ evolves w w' evs
    ∧ fetches evs = replicate m (requestFor prefix) ∧ (m ≤ MAX_RETRIES)%nat
    ∧ wellFormed suffix r
    ∧ (r = errorResult ↔ is_Some (idb w) ∧ readError (host w) = true)
    ∧ (idb w = None → dbReady w = false → (2 ≤ failedOpens evs)%nat).
Proof.
  rewrite checkWith_eq. cbv zeta.
  destruct (prelude_spec prefix w) as (_ & _ & _ & _ & Hsome & _).
  destruct (prelude_evolves prefix w) as (evs0 & V0 & F0 & O0).
  set (w2 := (lruAccess prefix (initDB w).2).2) in *.
  assert (Hh2 : host w2 = host w) by apply V0.
  destruct (getCacheEntry_evolves prefix w2)
    as (c & w3 & evs1 & -> & V1 & F1 & O1 & Hthrow).
  rewrite Hsome, Hh2 in Hthrow.
  pose proof (evolves_trans _ _ _ _ _ V0 V1) as V01.
  assert (F01 : fetches (evs0 ++ evs1) = []) by (by rewrite fetches_app, F0, F1).
  assert (O01 : idb w = None → dbReady w = false → (2 ≤ failedOpens (evs0 ++ evs1))%nat).
  { intros Hn Hr. rewrite failedOpens_app. specialize (O0 Hn Hr).
    destruct (proj2 (proj2 V0) Hn) as [Hn2 _]. destruct (O1 Hn2) as [_ ->]. lia. }
  assert (Hnoerr : ∀ r, r = offlineResult ∨ (∃ b f, r = verdict suffix b f) →
                   ¬ (∃ e : JsError, c = Throw e) →
                   (r = errorResult ↔ is_Some (idb w) ∧ readError (host w) = true)).
  { intros r Hr Hc. rewrite <- Hthrow. split; [|done].
    intros ->. destruct Hr as [?|(b & f & ?)]; discriminate. }
  destruct c as [[entry|]|e].
  - exists (verdict suffix (hashes entry) true), w3, (evs0 ++ evs1), 0%nat.
    split; [done|]. split; [done|]. split; [done|]. split; [lia|].
    split; [right; right; eauto|]. split; [|done].
    apply Hnoerr; [right; eauto|by intros [? ?]].
  - destruct (negb (default true (allowNetwork o)) || negb (hasFetch (host w3))).
    { exists offlineResult, w3, (evs0 ++ evs1), 0%nat.
      split; [done|]. split; [done|]. split; [done|]. split; [lia|].
      split; [right; by left|]. split; [|done].
      apply Hnoerr; [by left|by intros [? ?]]. }
    destruct (fetchFromHIBP_spec prefix (default 5000 (timeout o)) w3)
      as (r & w4 & evs2 & m & -> & N2 & F2 & Hm & _).
    pose proof (evolves_trans _ _ _ _ _ V01 (netFrame_evolves _ _ _ N2)) as V012.
    assert (F012 : fetches ((evs0 ++ evs1) ++ evs2) = replicate m (requestFor prefix)).
    { by rewrite fetches_app, F01, F2. }
    assert (O012 : idb w = None → dbReady w = false →
                   (2 ≤ failedOpens ((evs0 ++ evs1) ++ evs2))%nat).
    { intros Hn Hr. rewrite failedOpens_app. specialize (O01 Hn Hr). lia. }
    destruct r as [bucket|e].
    + destruct (setCacheEntry_evolves (Entry prefix bucket (clock w4)) w4)
        as (evs3 & V3 & F3).
      exists (verdict suffix bucket false), (setCacheEntry (Entry prefix bucket (clock w4)) w4).2,
        (((evs0 ++ evs1) ++ evs2) ++ evs3), m.
      split; [done|]. split; [by eapply evolves_trans|].
      split; [by rewrite fetches_app, F012, F3, app_nil_r|]. split; [lia|].
      split; [right; right; eauto|]. split.
      * apply Hnoerr; [right; eauto|by intros [? ?]].
      * intros Hn Hr. rewrite failedOpens_app. specialize (O012 Hn Hr). lia.
    + exists offlineResult, w4, ((evs0 ++ evs1) ++ evs2), m.
      split; [done|]. split; [done|]. split; [done|]. split; [lia|].
      split; [right; by left|]. split; [|done].
      apply Hnoerr; [by left|by intros [? ?]].
  - exists errorResult, (addEvent (EvLog "Breach check error:") w3),
      ((evs0 ++ evs1) ++ [EvLog "Breach check error:"]), 0%nat.
    split; [done|]. split.
    { eapply evolves_trans; [done|]. unfold evolves. simpl. done. }
    split; [by rewrite fetches_app, F01|]. split; [lia|].
    split; [by left|]. split.
    + split; [intros _; apply Hthrow; eauto|done].
    + intros Hn Hr. rewrite failedOpens_app. specialize (O01 Hn Hr). lia.
Qed.

(** Nothing but the prefix decides what happens to the world. *)
Lemma checkWith_suffix_irrelevant prefix s1 s2 o w :
  (checkWith prefix s1 o w).2 = (checkWith prefix s2 o w).2.
Proof.
  rewrite !checkWith_eq. cbv zeta.
  destruct (getCacheEntry prefix _) as [[[entry|]|e] w3]; [done| |done].
  destruct (negb _ || negb _); [done|].
  by destruct (fetchFromHIBP _ _ _) as [[bucket|e] w4].
Qed.

(** On a cold, readable store the call reaches the network step. *)
Lemma checkWith_miss prefix suffix o w :
  freshEntry w prefix = None → readable w →
  ∃ w3 evs,
    evolves w w3 evs ∧ fetches evs = [] ∧ sent w3 = sent w
    ∧ checkWith prefix suffix o w =
      if negb (default true (allowNetwork o)) || negb (hasFetch (host w))
      then (Return offlineResult, w3)
      else
        match fetchFromHIBP prefix (default 5000 (timeout o)) w3 with
        | (Return bucket, w4) =>
            (Return (verdict suffix bucket false),
             (setCacheEntry (Entry prefix bucket (clock w4)) w4).2)
        | (Throw _, w4) => (Return offlineResult, w4)
        end.
Proof.
  intros Hfresh Hread. rewrite checkWith_eq. cbv zeta.
  destruct (prelude_spec prefix w) as (Hh & _ & _ & _ & Hsome & Hfr).
  destruct (prelude_evolves prefix w) as (evs0 & V0 & F0 & _).
  set (w2 := (lruAccess prefix (initDB w).2).2) in *.
  assert (Hread2 : readable w2).
  { unfold readable in *. rewrite Hsome, Hh. done. }
  destruct (getCacheEntry_miss prefix w2 (Hfr Hfresh) Hread2)
    as (w3 & evs1 & E & Hh3 & _ & Ht3 & F1 & _).
  destruct (getCacheEntry_evolves prefix w2) as (c & w3' & evs1' & E' & V1 & F1' & _).
  rewrite E in E'. injection E' as <- <-. rewrite E.
  pose proof (evolves_trans _ _ _ _ _ V0 V1) as V01.
  exists w3, (evs0 ++ evs1'). split; [done|].
  split; [by rewrite fetches_app, F0, F1'|]. split.
  - unfold sent. destruct V01 as (_ & -> & _).
    fold (fetches (trace w ++ evs0 ++ evs1')) (fetches (trace w)).
    rewrite !fetches_app, F0, F1', !app_nil_r. done.
  - by rewrite Hh3, Hh.
Qed.

End Check.

(** ** The claims about the checker *)

Section Claims.

(** C1. Whatever the password, the options and the state of the world,
    every request sent during [checkPasswordBreach] is the request for the
    five-character prefix: its URL is the fixed endpoint followed by the
    prefix, its only header is the fixed [User-Agent]; at most three are
    sent. The 40-character digest occurs neither in the URL nor in a header
    name or value, and a password with the same prefix leaves the very
    same world behind (same requests, same store, same trace): nothing of
    the password but the prefix reaches the network. *)
Theorem only_prefix_is_sent (p : string) (o : BreachCheckOptions) (w : World) :
  let w' := (checkPasswordBreach p o w).2 in
  (∃ m, fetches (added w w')
        = replicate m (EvFetch (HIBP_API_URL +:+ hashPrefix p)
                               [("User-Agent", "password-kit")])
        ∧ (m ≤ 3)%nat)
  ∧ String.length (hashPrefix p) = 5%nat
  ∧ ¬ Str.occursIn (passwordHash p) (HIBP_API_URL +:+ hashPrefix p)
  ∧ ¬ Str.occursIn (passwordHash p) "User-Agent"
  ∧ ¬ Str.occursIn (passwordHash p) "password-kit"
  ∧ ∀ q, hashPrefix q = hashPrefix p → (checkPasswordBreach q o w).2 = w'.
Proof.
  unfold checkPasswordBreach. rewrite checkPassword_eq. cbv zeta.
  split.
  { destruct (checkWith_shape (hashPrefix p) (hashSuffix p) o w)
      as (r & w' & evs & m & -> & V & F & Hm & _).
    exists m. simpl. rewrite (added_app _ _ evs) by apply V. done. }
  split; [apply hashPrefix_length|].
  split; [apply hash_not_in_url, hashPrefix_length|].
  destruct (hash_not_in_headers p "User-Agent" "password-kit") as [H1 H2];
    [by apply list_elem_of_singleton|].
  split; [done|]. split; [done|].
  intros q Hq. rewrite checkPassword_eq, Hq. apply checkWith_suffix_irrelevant.
Qed.

Lemma only_prefix_is_sent_witness :
  (checkPasswordBreach "password" defaultOptions
     (freshWorld (Some ∅) 0 recoveringHost)).2
  = (checkPasswordBreach "password" defaultOptions
       (freshWorld (Some ∅) 0 recoveringHost)).2.
Proof.
  exact (proj2 (proj2 (proj2 (proj2 (proj2
    (only_prefix_is_sent "password" defaultOptions
       (freshWorld (Some ∅) 0 recoveringHost))))))
    "password" eq_refl).
Defined.



(** C4. With the store open and its read answering: [getCacheEntry]
    returns [null] when there is no record; it returns the record when its
    age [now - timestamp] is at most the 24 hours of [CACHE_TTL_MS], and
    leaves the store as it is; for an older record (one of age TTL + 1 ms
    for instance) it returns [null] and deletes the record. *)
Theorem durable_get_expiry (prefix : string) (w : World)
    (db : gmap string CacheEntry) :
  idb w = Some db → readError (host w) = false →
  ∃ w',
    getCacheEntry prefix w =
      (Return match db !! prefix with
              | None => None
              | Some e =>
                  if decide (clock w - timestamp e ≤ 24 * 60 * 60 * 1000)
                  then Some e else None
              end, w')
    ∧ idb w' = Some match db !! prefix with
                    | None => db
                    | Some e =>
                        if decide (clock w - timestamp e ≤ 24 * 60 * 60 * 1000)
                        then db else delete prefix db
                    end
    ∧ match db !! prefix with
      | Some e =>
          if decide (timestamp e = clock w - (CACHE_TTL_MS + 1))
          then getCacheEntry prefix w = (Return None, w')
               ∧ idb w' = Some (delete prefix db)
          else True
      | None => True
      end.
Proof.
  intros Hdb Hread. rewrite getCacheEntry_eq, Hdb, Hread. cbv zeta.
  change (24 * 60 * 60 * 1000) with CACHE_TTL_MS.
  destruct (db !! prefix) as [e|].
  2:{ eexists. split; [reflexivity|]. simpl. by rewrite Hdb. }
  destruct (decide (clock w - timestamp e ≤ CACHE_TTL_MS)) as [Hnew|Hold];
    destruct (Z.ltb_spec CACHE_TTL_MS (clock w - timestamp e)) as [Hlt|Hge];
    try lia.
  - eexists. split; [reflexivity|]. simpl. split; [done|].
    destruct (decide _) as [E|]; [|done]. lia.
  - eexists. split; [reflexivity|]. split; [reflexivity|].
    by destruct (decide _).
Qed.

Lemma durable_get_expiry_witness :
  ∃ w',
    getCacheEntry "5BAA6"
      (freshWorld (Some {["5BAA6" := Entry "5BAA6" [] 0]})
                  (CACHE_TTL_MS + 1) throttlingHost)
    = (Return None, w')
    ∧ idb w' = Some (delete "5BAA6" {["5BAA6" := Entry "5BAA6" [] 0]}).
Proof.
  destruct (durable_get_expiry "5BAA6"
              (freshWorld (Some {["5BAA6" := Entry "5BAA6" [] 0]})
                          (CACHE_TTL_MS + 1) throttlingHost)
              {["5BAA6" := Entry "5BAA6" [] 0]} eq_refl eq_refl)
    as (w' & _ & _ & H).
  exists w'. rewrite lookup_singleton_eq in H.
  destruct (decide _) as [_|Hne] in H; [exact H|].
  exfalso. apply Hne. reflexivity.
Defined.

(** C5. With [allowNetwork: false] and no unexpired record for the prefix
    (the store missing, or open with its read answering), the call
    resolves to [{checked: false, breached: null, offline: true}] and
    sends no request. *)
Theorem offline_cold_cache (p : string) (o : BreachCheckOptions) (w : World) :
  allowNetwork o = Some false →
  freshEntry w (hashPrefix p) = None → readable w →
  ∃ w', checkPasswordBreach p o w
        = (Return (Result false None None (Some true) None), w')
        ∧ fetches (added w w') = [] ∧ sent w' = sent w.
Proof.
  intros Hallow Hfresh Hread.
  unfold checkPasswordBreach. rewrite checkPassword_eq.
  destruct (checkWith_miss (hashPrefix p) (hashSuffix p) o w Hfresh Hread)
    as (w3 & evs & V & F & Hs & ->).
  rewrite Hallow. simpl. exists w3. split; [done|].
  by rewrite (added_app _ _ evs) by apply V.
Qed.

Lemma offline_cold_cache_witness :
  ∃ w', checkPasswordBreach "testpassword" offlineOptions
          (freshWorld None 0 throttlingHost)
        = (Return (Result false None None (Some true) None), w')
        ∧ fetches (added (freshWorld None 0 throttlingHost) w') = []
        ∧ sent w' = sent (freshWorld None 0 throttlingHost).
Proof.
  apply (offline_cold_cache "testpassword" offlineOptions
           (freshWorld None 0 throttlingHost)).
  - reflexivity.
  - reflexivity.
  - intros [db Hdb]. discriminate Hdb.
Defined.

(** [clearCache] never throws; with the store open it empties the store
    and replaces the LRU index. *)
Lemma clearCache_resolves w : (clearCache w).1 = Return tt.
Proof. by rewrite clearCache_eq. Qed.

Lemma clearCache_available w db :
  idb w = Some db →
  idb (clearCache w).2 = Some ∅
  ∧ lruCache (clearCache w).2 = LRU.new MAX_CACHE_SIZE.
Proof. intros Hdb. by rewrite clearCache_eq, Hdb. Qed.

Lemma clearCache_unavailable w :
  idb w = None → lruCache (clearCache w).2 = lruCache w.
Proof. intros Hdb. by rewrite clearCache_eq, Hdb. Qed.

(** C6, at the failing input. Without IndexedDB, after one offline check
    of "password" the LRU index holds the prefix 5BAA6; [clearBreachCache]
    then resolves, but the index still holds that prefix: the reset of
    [lruCache] sits inside the [try], after the store is opened. *)
Theorem clearCache_keeps_lru_without_store :
  let w1 := (checkPasswordBreach "password" offlineOptions
               (freshWorld None 0 throttlingHost)).2 in
  let r := clearBreachCache w1 in
  r.1 = Return tt
  ∧ LRU.reachableKeys (lruCache w1) = ["5BAA6"]
  ∧ LRU.reachableKeys (lruCache r.2) = ["5BAA6"]
  ∧ size (LRU.cache (lruCache r.2)) = 1%nat.
Proof. vm_compute. done. Qed.






(** C10. Every call resolves to a result, whatever the password, the
    options and the world: the body's exceptions end in the outer [catch].
    Whenever [checked] is [false], [breached] is [null]. The outer [catch]
    answers [{checked: false, breached: null}], with no [offline] field,
    and it is taken exactly when the store is open and its read fails. *)
Theorem check_always_resolves (p : string) (o : BreachCheckOptions) (w : World) :
  ∃ r w',
    checkPasswordBreach p o w = (Return r, w')
    ∧ (checked r = false → breached r = None)
    ∧ (r = Result false None None None None
       ↔ is_Some (idb w) ∧ readError (host w) = true)
    ∧ (r = Result false None None None None
       ∨ r = Result false None None (Some true) None
       ∨ ∃ bucket fromCache, r = verdict (hashSuffix p) bucket fromCache).
Proof.
  unfold checkPasswordBreach. rewrite checkPassword_eq.
  destruct (checkWith_shape (hashPrefix p) (hashSuffix p) o w)
    as (r & w' & evs & m & -> & _ & _ & _ & Hwf & Herr & _).
  exists r, w'. split; [done|]. split; [|done].
  destruct Hwf as [->|[->|(bucket & fromCache & ->)]]; done.
Qed.

Lemma check_always_resolves_witness :
  ∃ r w',
    checkPasswordBreach "password" defaultOptions
      (freshWorld (Some ∅) 0 brokenReadHost) = (Return r, w')
    ∧ r = Result false None None None None ∧ offline r = None.
Proof.
  destruct (check_always_resolves "password" defaultOptions
              (freshWorld (Some ∅) 0 brokenReadHost))
    as (r & w' & E & _ & Hiff & _).
  exists r, w'. split; [exact E|].
  assert (Hr : r = Result false None None None None).
  { apply Hiff. split; [by eexists|reflexivity]. }
  split; [exact Hr|]. rewrite Hr. reflexivity.
Defined.

End Claims.

(** ** Scenarios *)

Section Scenarios.

(** The scenario of the specification: a first call for "password" fetches
    the bucket (after one throttled attempt) and reports a breach; a second
    call answers from the store and sends nothing. *)
Example password_twice :
  let w0 := freshWorld (Some ∅) 0 recoveringHost in
  let r1 := checkPasswordBreach "password" defaultOptions w0 in
  let r2 := checkPasswordBreach "password" defaultOptions r1.2 in
  r1.1 = Return (Result true (Some true) (Some 1) None (Some false))
  ∧ length (fetches (trace r1.2)) = 2%nat
  ∧ r2.1 = Return (Result true (Some true) (Some 1) None (Some true))
  ∧ fetches (added r1.2 r2.2) = [].
Proof. vm_compute. done. Qed.

Example unknown_password :
  (checkPasswordBreach "Xk9#mQ2!vL7" defaultOptions
     (freshWorld (Some ∅) 0 brokenReadHost)).1
  = Return (Result false None None None None).
Proof. vm_compute. done. Qed.

Example throttled_three_times :
  let r := checkPasswordBreach "password" defaultOptions
             (freshWorld None 1700000000000 throttlingHost) in
  r.1 = Return (Result false None None (Some true) None)
  ∧ fetches (trace r.2) = replicate 3 (requestFor "5BAA6")
  ∧ omap (fun ev => match ev with EvSleep ms => Some ms | _ => None end) (trace r.2)
    = [1000; 2000; 4000].
Proof. vm_compute. done. Qed.

Example parse_bucket :
  parseHashes "AB:1
 CD :2

:3
EF" = ["AB"; "CD"; "EF"].
Proof. vm_compute. done. Qed.

(** A cache of capacity 3: the fourth and fifth new keys push out the two
    least recently touched ones. *)
Example lru_capacity_three :
  let c := LRU.run ["a"; "b"; "c"; "a"; "d"; "e"] (LRU.new 3) in
  LRU.reachableKeys c = ["e"; "d"; "a"]
  ∧ (LRU.access "z" c).2 = Some "a"
  ∧ (LRU.access "d" c).2 = None
  ∧ LRU.reachableKeys (LRU.access "d" c).1 = ["d"; "e"; "a"].
Proof. vm_compute. done. Qed.

(** Capacities 0 and 1 still work. *)
Example lru_capacity_zero_one :
  LRU.reachableKeys (LRU.run ["a"; "b"] (LRU.new 0)) = []
  ∧ LRU.reachableKeys (LRU.run ["a"; "b"] (LRU.new 1)) = ["b"]
  ∧ (LRU.access "b" (LRU.run ["a"] (LRU.new 1))).2 = Some "a".
Proof. vm_compute. done. Qed.

End Scenarios.

(** ** More on the LRU index *)

Section LruContents.
Import LRU LRUInv LRUFacts.

Lemma elem_of_take_le (x : string) (l : list string) n m :
  x ∈ take n l → (n ≤ m)%nat → x ∈ take m l.
Proof.
  rewrite !elem_of_take. intros (i & Hi & Hlt) Hle. exists i. split; [done|lia].
Qed.

Lemma take_filter_notin (k : string) (D : list string) n :
  k ∉ take n D → take n (filter (λ x, x ≠ k) D) = take n D.
Proof.
  revert n. induction D as [|x D IH]; intros [|n]; simpl; try done.
  intros [Hne Hin]%not_elem_of_cons.
  rewrite filter_cons_True by done. simpl. by rewrite IH.
Qed.

Lemma take_filter_in (k : string) (D : list string) n :
  NoDup D → k ∈ take (S n) D →
  take n (filter (λ x, x ≠ k) D) = filter (λ x, x ≠ k) (take (S n) D).
Proof.
  revert n. induction D as [|x D IH]; intros n; [by intros _ ?%elem_of_nil|].
  intros [Hx Hnd]%NoDup_cons. simpl. destruct (decide (x = k)) as [->|Hne].
  - intros _. rewrite !filter_cons_False by (intros ?; done).
    rewrite filter_ne_id by done.
    symmetry. apply filter_ne_id. intros Hin. apply Hx.
    by apply (subseteq_take n D).
  - intros [?|Hin]%elem_of_cons; [done|].
    rewrite !filter_cons_True by done.
    destruct n as [|n]; [by apply elem_of_nil in Hin|].
    simpl. f_equal. by apply IH.
Qed.

Lemma touchKey_NoDup k ks : NoDup ks → NoDup (touchKey k ks).
Proof.
  intros Hnd. apply NoDup_cons. split; [|by apply NoDup_filter].
  by intros [? _]%list_elem_of_filter.
Qed.

Lemma touchKey_elem k ks x : x ∈ touchKey k ks ↔ x = k ∨ x ∈ ks.
Proof.
  unfold touchKey. rewrite elem_of_cons, list_elem_of_filter.
  destruct (decide (x = k)); tauto.
Qed.

Lemma recent_snoc hist k : recent (hist ++ [k]) = touchKey k (recent hist).
Proof. unfold recent. by rewrite foldl_app. Qed.

Lemma recent_NoDup hist : NoDup (recent hist).
Proof.
  induction hist as [|k hist IH] using rev_ind; [constructor|].
  rewrite recent_snoc. by apply touchKey_NoDup.
Qed.

Lemma recent_elem hist x : x ∈ recent hist ↔ x ∈ hist.
Proof.
  induction hist as [|k hist IH] using rev_ind; [done|].
  rewrite recent_snoc, touchKey_elem, IH, elem_of_app, list_elem_of_singleton. tauto.
Qed.

Lemma recent_sorted hist : StronglySorted (touchedAfter hist) (recent hist).
Proof.
  induction hist as [|k hist IH] using rev_ind; [constructor|].
  rewrite recent_snoc. apply sorted_touch; [done|]. intros x. by rewrite recent_elem.
Qed.

(** One [access] against the recency list: the cache keeps the first
    [maxSize] keys of it. *)
Lemma access_recent c items D k :
  Rep c items → NoDup D → items.*2 = take (maxSize c) D →
  ∃ items', Rep (access k c).1 items'
            ∧ items'.*2 = take (maxSize c) (touchKey k D).
Proof.
  intros R HD Hitems. pose proof (rep_nodup_key _ _ R) as Hnk.
  assert (Hlen : length items = length (take (maxSize c) D)).
  { by rewrite <- Hitems, length_fmap. }
  destruct (access_Rep c items k R)
    as [(a & n & b & -> & _ & R')
       |[(Hk & Hroom & _ & R')|(Hk & Hfull & pre & l & e & E & _ & R')]].
  - exists ((n, k) :: a ++ b). split; [done|].
    rewrite fmap_app in Hnk, Hitems. simpl in Hnk, Hitems.
    apply NoDup_app in Hnk as (_ & Hka & [Hkb _]%NoDup_cons).
    assert (Hka' : k ∉ a.*2) by (intros Hin; apply (Hka _ Hin); left).
    assert (Hin : k ∈ take (maxSize c) D).
    { rewrite <- Hitems, elem_of_app. right. left. }
    destruct (maxSize c) as [|m]; [by apply elem_of_nil in Hin|].
    unfold touchKey. rewrite firstn_cons, take_filter_in by done.
    rewrite <- Hitems, filter_app, filter_cons_False by (intros ?; done).
    rewrite !filter_ne_id by done. by rewrite fmap_cons, fmap_app.
  - exists ((fresh c, k) :: items). split; [done|].
    rewrite length_take in Hlen.
    assert (HDall : take (maxSize c) D = D) by (apply take_ge; lia).
    rewrite HDall in Hitems. rewrite Hitems in Hk.
    unfold touchKey. rewrite filter_ne_id by done.
    rewrite take_ge by (simpl; rewrite <- Hitems, length_fmap; lia).
    by rewrite fmap_cons, Hitems.
  - exists pre. split; [done|].
    rewrite Hitems in Hk.
    assert (Hcap : length items = maxSize c).
    { rewrite length_take in Hlen. lia. }
    destruct (maxSize c) as [|m] eqn:Em.
    { destruct items; [|done]. destruct pre as [|? [|]]; try done. }
    destruct pre as [|[l0 k0] pre1].
    { simpl in E. injection E as _ _ ->. done. }
    simpl in E. injection E as <- <- E. subst items.
    rewrite fmap_app in Hitems. simpl in Hitems.
    assert (Hpre : pre1.*2 = take m D).
    { rewrite length_app in Hcap. simpl in Hcap.
      assert (length pre1.*2 = m) as Hl by (rewrite length_fmap; lia).
      apply (f_equal (take m)) in Hitems.
      rewrite take_app_length' in Hitems by done.
      rewrite take_take in Hitems. by replace (m `min` S m)%nat with m in Hitems by lia. }
    unfold touchKey. rewrite firstn_cons, take_filter_notin.
    + by rewrite fmap_cons, Hpre.
    + intros Hin. apply Hk. eapply elem_of_take_le; [done|lia].
Qed.

Lemma run_recent cap hist :
  ∃ items, Rep (run hist (new cap)) items
           ∧ maxSize (run hist (new cap)) = cap
           ∧ items.*2 = take cap (recent hist).
Proof.
  induction hist as [|k hist IH] using rev_ind.
  - exists []. split; [apply Rep_new|]. split; [done|]. by destruct cap.
  - destruct IH as (items & R & Hmax & Hitems). rewrite run_snoc.
    rewrite <- Hmax in Hitems.
    destruct (access_recent _ _ _ k R (recent_NoDup hist) Hitems) as (items' & R' & H').
    exists items'. split; [done|]. rewrite access_maxSize. split; [done|].
    by rewrite recent_snoc, <- Hmax.
Qed.

(** X1. After any sequence of touches from an empty cache of any
    capacity, the keys met from [head] along [next] are the [maxSize] most
    recently touched distinct keys, most recent first. The recency list
    [recent hist] has no duplicate, holds exactly the keys touched, and is
    ordered by last touch. *)
Theorem lru_holds_most_recent (cap : nat) (hist : list string) :
  LRU.reachableKeys (LRU.run hist (LRU.new cap)) = take cap (recent hist)
  ∧ NoDup (recent hist)
  ∧ (∀ k, k ∈ recent hist ↔ k ∈ hist)
  ∧ StronglySorted (touchedAfter hist) (recent hist).
Proof.
  destruct (run_recent cap hist) as (items & R & _ & Hitems).
  split; [by rewrite (Rep_reachableKeys _ _ R)|].
  split; [apply recent_NoDup|]. split; [apply recent_elem|apply recent_sorted].
Qed.

(** X2. Touching the key that was touched last changes nothing: the node
    is already at the head, [moveToFront] returns at once, no node is
    allocated and nothing is evicted (any capacity of at least one). *)
Theorem lru_touch_twice_is_noop (cap : nat) (hist : list string) (k : string) :
  let c := LRU.run (hist ++ [k]) (LRU.new (S cap)) in
  LRU.access k c = (c, None).
Proof.
  intros c. destruct (run_recent (S cap) (hist ++ [k])) as (items & R & Hmax & Hitems).
  fold c in R, Hmax. rewrite recent_snoc in Hitems. unfold touchKey in Hitems.
  rewrite firstn_cons in Hitems. destruct items as [|[n k'] items]; [done|].
  simpl in Hitems. injection Hitems as -> _.
  unfold access. rewrite (proj2 (rep_cache _ _ R k n)) by left.
  unfold moveToFront. rewrite (rep_head _ _ R). simpl.
  by rewrite decide_True.
Qed.

End LruContents.

(** ** The store and the index together *)

Section StoreAndIndex.
Import LRU LRUInv LRUFacts.

Lemma initDB_store w :
  lruCache (initDB w).2 = lruCache w ∧ idb (initDB w).2 = idb w
  ∧ clock (initDB w).2 = clock w ∧ host (initDB w).2 = host w.
Proof. rewrite initDB_eq. by destruct w as [lru last [|] [db|] clk tr hst]. Qed.

Lemma lruAccess_store k w :
  lruCache (lruAccess k w).2 = (access k (lruCache w)).1
  ∧ idb (lruAccess k w).2
    = match (access k (lruCache w)).2 with
      | Some e => delete e <$> idb w
      | None => idb w
      end
  ∧ clock (lruAccess k w).2 = clock w ∧ host (lruAccess k w).2 = host w.
Proof.
  rewrite lruAccess_eq. destruct w as [lru last ready db clk tr hst]. simpl.
  by destruct (access k lru) as [c' [e|]], db as [db|].
Qed.

Lemma getCacheEntry_store prefix w :
  lruCache (getCacheEntry prefix w).2 = lruCache w
  ∧ clock (getCacheEntry prefix w).2 = clock w
  ∧ host (getCacheEntry prefix w).2 = host w
  ∧ (idb (getCacheEntry prefix w).2 = idb w
     ∨ (getCacheEntry prefix w).1 = Return None
       ∧ idb (getCacheEntry prefix w).2 = delete prefix <$> idb w).
Proof.
  rewrite getCacheEntry_eq.
  destruct w as [lru last ready [db|] clk tr [rerr hf net]]; simpl;
    [destruct rerr; simpl;
       [|destruct (db !! prefix) as [e|]; simpl;
           [destruct (CACHE_TTL_MS <? clk - timestamp e); simpl|]]|];
    (split; [reflexivity|]); (split; [reflexivity|]); (split; [reflexivity|]);
    first [left; reflexivity | right; split; reflexivity].
Qed.

Lemma setCacheEntry_store entry w :
  lruCache (setCacheEntry entry w).2 = lruCache w
  ∧ idb (setCacheEntry entry w).2 = insert (entryPrefix entry) entry <$> idb w
  ∧ clock (setCacheEntry entry w).2 = clock w
  ∧ host (setCacheEntry entry w).2 = host w.
Proof.
  rewrite setCacheEntry_eq. by destruct w as [lru last ready [db|] clk tr hst].
Qed.

(** What a call does to the index and to the store: the index is touched
    once for the prefix; in the store only the record of the prefix and the
    record of the evicted key can change. *)
Lemma checkWith_store prefix suffix o w :
  let w' := (checkWith prefix suffix o w).2 in
  lruCache w' = (access prefix (lruCache w)).1
  ∧ match idb w with
    | None => idb w' = None
    | Some db =>
        ∃ db', idb w' = Some db'
          ∧ ∀ k, k ≠ prefix →
              db' !! k = match (access prefix (lruCache w)).2 with
                         | Some e => delete e db
                         | None => db
                         end !! k
    end.
Proof.
  rewrite checkWith_eq. cbv zeta.
  destruct (initDB_store w) as (L1 & I1 & _).
  destruct (lruAccess_store prefix (initDB w).2) as (L2 & I2 & _).
  set (w2 := (lruAccess prefix (initDB w).2).2) in *.
  rewrite L1 in L2. rewrite L1, I1 in I2.
  set (ev := (access prefix (lruCache w)).2) in *.
  set (base := match ev with Some e => delete e <$> idb w | None => idb w end) in *.
  assert (Hgoal : ∀ w' : World, lruCache w' = lruCache w2 →
            (idb w' = base ∨ idb w' = delete prefix <$> base
             ∨ (∃ entry, entryPrefix entry = prefix
                         ∧ (idb w' = insert prefix entry <$> base
                            ∨ idb w' = insert prefix entry <$> (delete prefix <$> base)))) →
            lruCache w' = (access prefix (lruCache w)).1
            ∧ match idb w with
              | None => idb w' = None
              | Some db =>
                  ∃ db', idb w' = Some db'
                    ∧ ∀ k, k ≠ prefix →
                        db' !! k = match ev with
                                   | Some e => delete e db
                                   | None => db
                                   end !! k
              end).
  { intros w' HL HI. split; [congruence|]. subst base.
    destruct (idb w) as [db|] eqn:Edb.
    - set (db0 := match ev with Some e => delete e db | None => db end).
      assert (Hb : match ev with Some e => delete e <$> Some db | None => Some db end
                   = Some db0) by (by destruct ev).
      rewrite Hb in HI. simpl in HI.
      destruct HI as [->|[->|(entry & Hp & [->| ->])]]; eexists; (split; [done|]);
        intros k Hk; by rewrite ?lookup_insert_ne, ?lookup_delete_ne by done.
    - assert (Hb : match ev with Some e => delete e <$> None | None => None end
                   = (None : option (gmap string CacheEntry))) by (by destruct ev).
      rewrite Hb in HI. simpl in HI.
      destruct HI as [->|[->|(entry & Hp & [->| ->])]]; done. }
  destruct (getCacheEntry_store prefix w2) as (L3 & _ & _ & I3).
  destruct (getCacheEntry prefix w2) as [c w3]. simpl in L3, I3.
  assert (I3' : idb w3 = base ∨ idb w3 = delete prefix <$> base).
  { destruct I3 as [->|[_ ->]]; rewrite I2; auto. }
  destruct c as [[entry|]|e].
  - apply Hgoal; [done|]. destruct I3' as [?|?]; auto.
  - destruct (negb _ || negb _).
    { apply Hgoal; [done|]. destruct I3' as [?|?]; auto. }
    destruct (fetchFromHIBP_spec prefix (default 5000 (timeout o)) w3)
      as (r & w4 & evs & m & -> & (L4 & _ & I4 & _) & _).
    destruct r as [bucket|e].
    + destruct (setCacheEntry_store (Entry prefix bucket (clock w4)) w4)
        as (L5 & I5 & _).
      apply Hgoal; [simpl; congruence|]. right. right.
      exists (Entry prefix bucket (clock w4)). split; [done|].
      simpl in *. rewrite I5, I4. destruct I3' as [->| ->]; auto.
    + apply Hgoal; [simpl; congruence|]. simpl. rewrite I4.
      destruct I3' as [?|?]; auto.
  - apply Hgoal; [done|]. simpl. destruct I3' as [?|?]; auto.
Qed.


Lemma lruGrown_bound w :
  lruGrown w → (size (cache (lruCache w)) ≤ MAX_CACHE_SIZE)%nat.
Proof.
  intros [hist ->].
  destruct (run_Inv MAX_CACHE_SIZE hist MAX_CACHE_SIZE_pos) as [items I].
  rewrite (Rep_size _ _ (inv_rep _ _ _ _ I)). apply (inv_len _ _ _ _ I).
Qed.

(** After a touch of [k] in a grown index: [k] is held, the evicted key is
    another key and is no longer held, every other key held before still is. *)
Lemma lruGrown_access w k :
  lruGrown w →
  let c := lruCache w in
  k ∈ dom (cache (access k c).1)
  ∧ match (access k c).2 with
    | Some e => e ≠ k ∧ e ∈ dom (cache c)
                ∧ ∀ x, x ∈ dom (cache c) → x ≠ e → x ∈ dom (cache (access k c).1)
    | None => ∀ x, x ∈ dom (cache c) → x ∈ dom (cache (access k c).1)
    end.
Proof.
  intros [hist ->]. cbv zeta.
  destruct (run_Inv MAX_CACHE_SIZE hist MAX_CACHE_SIZE_pos) as [items I].
  destruct (access_Inv _ _ _ _ k MAX_CACHE_SIZE_pos I) as (items' & I' & Hstep).
  rewrite (Rep_dom _ _ (inv_rep _ _ _ _ I)), (Rep_dom _ _ (inv_rep _ _ _ _ I')).
  destruct ((access k (run hist (new MAX_CACHE_SIZE))).2) as [e|].
  - destruct Hstep as (Hk & _ & pre & Hpre & Hpre'). rewrite Hpre, Hpre'.
    rewrite Hpre in Hk. split; [apply elem_of_list_to_set; left|].
    split; [intros ->; apply Hk, elem_of_app; right; left|].
    split; [apply elem_of_list_to_set, elem_of_app; right; left|].
    intros x. rewrite !elem_of_list_to_set, elem_of_app, list_elem_of_singleton.
    intros [?|?] ?; [by right|done].
  - destruct Hstep as [_ Hmem]. split.
    + apply elem_of_list_to_set, Hmem. by left.
    + intros x. rewrite !elem_of_list_to_set, Hmem. by right.
Qed.

Lemma checkPassword_lruGrown p o w :
  lruGrown w → lruGrown (checkPasswordBreach p o w).2.
Proof.
  intros [hist Hh]. exists (hist ++ [hashPrefix p]).
  unfold checkPasswordBreach. rewrite checkPassword_eq.
  destruct (checkWith_store (hashPrefix p) (hashSuffix p) o w) as [-> _].
  by rewrite Hh, run_snoc.
Qed.

(** X3. In a session that starts with an empty store and a new checker,
    whatever calls of [checkPasswordBreach] and [clearBreachCache] follow
    and however time passes between them, every key of the store is a key
    of the LRU index; so the store never holds more than
    [MAX_CACHE_SIZE] = 1000 prefixes. *)
Theorem session_store_bounded (calls : list Call) (now : Z) (h : Host) :
  let w := session calls (freshWorld (Some ∅) now h) in
  storedKeys w ⊆ dom (LRU.cache (lruCache w))
  ∧ (size (storedKeys w) ≤ 1000)%nat
  ∧ is_Some (idb w).
Proof.
  cbv zeta.
  assert (J : lruGrown (session calls (freshWorld (Some ∅) now h))
              ∧ is_Some (idb (session calls (freshWorld (Some ∅) now h)))
              ∧ storedKeys (session calls (freshWorld (Some ∅) now h))
                ⊆ dom (cache (lruCache (session calls (freshWorld (Some ∅) now h))))).
  { induction calls as [|c calls IH] using rev_ind.
    - split; [by exists []|]. split; [by eexists|]. unfold storedKeys. simpl.
      by rewrite dom_empty_L.
    - unfold session in *. rewrite foldl_app. simpl.
      set (w := foldl step (freshWorld (Some ∅) now h) calls) in *.
      destruct IH as (G & [db Hdb] & Hsub). unfold storedKeys in Hsub.
      rewrite Hdb in Hsub. destruct c as [p o| |ms]; simpl.
      + split; [by apply checkPassword_lruGrown|].
        unfold checkPasswordBreach, storedKeys. rewrite checkPassword_eq.
        destruct (checkWith_store (hashPrefix p) (hashSuffix p) o w) as [-> Hst].
        rewrite Hdb in Hst. destruct Hst as (db' & -> & Hother).
        split; [by eexists|].
        destruct (lruGrown_access w (hashPrefix p) G) as [Hin Hev].
        intros x Hx. destruct (decide (x = hashPrefix p)) as [->|Hne]; [done|].
        apply elem_of_dom in Hx. rewrite (Hother x Hne) in Hx.
        destruct (access (hashPrefix p) (lruCache w)).2 as [e|].
        * destruct Hev as (_ & _ & Hkeep).
          destruct (decide (x = e)) as [->|Hxe];
            [by rewrite lookup_delete_eq in Hx; destruct Hx|].
          rewrite lookup_delete_ne in Hx by done.
          apply Hkeep; [|done]. by apply Hsub, elem_of_dom.
        * by apply Hev, Hsub, elem_of_dom.
      + unfold clearBreachCache, storedKeys. rewrite clearCache_eq, Hdb. simpl.
        split; [by exists []|]. split; [by eexists|]. by rewrite dom_empty_L.
      + split; [done|]. split; [by eexists|]. unfold storedKeys. simpl.
        by rewrite Hdb. }
  destruct J as (G & Hsome & Hsub). split; [done|]. split; [|done].
  etrans; [apply subseteq_size, Hsub|]. rewrite size_dom. by apply lruGrown_bound.
Qed.

End StoreAndIndex.

(** ** Cache hits, write-back and invalidation *)

Section Paths.
Import LRU LRUInv LRUFacts.

Lemma getCacheEntry_hit k w db entry :
  idb w = Some db → readError (host w) = false →
  db !! k = Some entry → clock w - timestamp entry ≤ CACHE_TTL_MS →
  getCacheEntry k w
  = (Return (Some entry), addEvent (EvGet k) (addEvent (EvOpenDB true) w)).
Proof.
  intros Hdb Hread Hk Hage. rewrite getCacheEntry_eq, Hdb, Hread. cbv zeta.
  rewrite Hk. destruct (Z.ltb_spec CACHE_TTL_MS (clock w - timestamp entry)); [lia|done].
Qed.

(** A record of the prefix that is still valid answers the call. *)
Lemma checkWith_hit prefix suffix o w db entry :
  lruGrown w → idb w = Some db → readError (host w) = false →
  db !! prefix = Some entry → clock w - timestamp entry ≤ CACHE_TTL_MS →
  ∃ w', checkWith prefix suffix o w
        = (Return (verdict suffix (hashes entry) true), w')
    ∧ fetches (added w w') = [] ∧ clock w' = clock w
    ∧ ∃ db', idb w' = Some db' ∧ db' !! prefix = Some entry.
Proof.
  intros G Hdb Hread Hk Hage. rewrite checkWith_eq. cbv zeta.
  destruct (initDB_store w) as (L1 & I1 & C1 & H1).
  destruct (lruAccess_store prefix (initDB w).2) as (L2 & I2 & C2 & H2).
  destruct (prelude_evolves prefix w) as (evs0 & V0 & F0 & _).
  set (w2 := (lruAccess prefix (initDB w).2).2) in *.
  rewrite L1, I1, Hdb in I2. rewrite C1 in C2. rewrite H1 in H2.
  destruct (lruGrown_access w prefix G) as [_ Hev].
  assert (Hdb2 : ∃ db2, idb w2 = Some db2 ∧ db2 !! prefix = Some entry).
  { rewrite I2. destruct (access prefix (lruCache w)).2 as [e|]; simpl.
    - eexists. split; [done|]. rewrite lookup_delete_ne; [done|]. apply Hev.
    - by eexists. }
  destruct Hdb2 as (db2 & Hdb2 & Hk2).
  rewrite (getCacheEntry_hit prefix w2 db2 entry) by (rewrite ?H2, ?C2; done).
  eexists. split; [done|].
  assert (Ht : trace (addEvent (EvGet prefix) (addEvent (EvOpenDB true) w2))
               = trace w ++ evs0 ++ [EvOpenDB true; EvGet prefix]).
  { simpl. rewrite (proj1 (proj2 V0)), <- !app_assoc. done. }
  rewrite (added_app _ _ _ Ht), fetches_app, F0. simpl.
  split; [done|]. split; [done|]. by exists db2.
Qed.


(** X4. A cache hit answers locally. When the store holds, for the prefix
    of the password, a record not older than the TTL (store open, read
    answering, index grown by touches), the call returns the verdict read
    from that record with [cached: true], whatever the options say about
    the network; it sends no request, does not wait, and leaves the record
    in place. *)
Theorem cache_hit_answers_locally (p : string) (o : BreachCheckOptions)
    (w : World) (db : gmap string CacheEntry) (entry : CacheEntry) :
  lruGrown w → idb w = Some db → readError (host w) = false →
  db !! hashPrefix p = Some entry →
  clock w - timestamp entry ≤ CACHE_TTL_MS →
  ∃ w', checkPasswordBreach p o w
        = (Return (Result true (Some (bool_decide (hashSuffix p ∈ hashes entry)))
                     (if bool_decide (hashSuffix p ∈ hashes entry)
                      then Some 1 else None)
                     None (Some true)), w')
    ∧ fetches (added w w') = [] ∧ clock w' = clock w
    ∧ ∃ db', idb w' = Some db' ∧ db' !! hashPrefix p = Some entry.
Proof.
  intros G Hdb Hread Hk Hage. unfold checkPasswordBreach. rewrite checkPassword_eq.
  by apply checkWith_hit with db.
Qed.

Lemma cache_hit_answers_locally_witness :
  ∃ w', checkPasswordBreach "password" offlineOptions
          (freshWorld (Some {["5BAA6" := Entry "5BAA6"
                                ["1E4C9B93F3F0682250B6CF8331B7EE68FD8"] 0]})
                      1000 throttlingHost)
        = (Return (Result true (Some true) (Some 1) None (Some true)), w').
Proof.
  destruct (cache_hit_answers_locally "password" offlineOptions
              (freshWorld (Some {["5BAA6" := Entry "5BAA6"
                                    ["1E4C9B93F3F0682250B6CF8331B7EE68FD8"] 0]})
                          1000 throttlingHost)
              {["5BAA6" := Entry "5BAA6" ["1E4C9B93F3F0682250B6CF8331B7EE68FD8"] 0]}
              (Entry "5BAA6" ["1E4C9B93F3F0682250B6CF8331B7EE68FD8"] 0))
    as (w' & E & _).
  - exists []. reflexivity.
  - reflexivity.
  - reflexivity.
  - vm_compute. reflexivity.
  - vm_compute. discriminate.
  - exists w'. rewrite E. vm_compute. reflexivity.
Defined.



(** X6. With the store open, [clearBreachCache] empties the store and
    replaces the index by a new one; a second call changes neither; and a
    cache-only check that follows, for any password, is a miss: it returns
    the offline result. What had been cached is gone. *)
Theorem clear_invalidates (p : string) (o : BreachCheckOptions) (w : World)
    (db : gmap string CacheEntry) :
  idb w = Some db → readError (host w) = false → allowNetwork o = Some false →
  let w1 := (clearBreachCache w).2 in
  idb w1 = Some ∅ ∧ lruCache w1 = LRU.new MAX_CACHE_SIZE
  ∧ idb (clearBreachCache w1).2 = idb w1
  ∧ lruCache (clearBreachCache w1).2 = lruCache w1
  ∧ (checkPasswordBreach p o w1).1 = Return (Result false None None (Some true) None).
Proof.
  intros Hdb Hread Hallow. cbv zeta. unfold clearBreachCache.
  destruct (clearCache_available w db Hdb) as [Hi Hl].
  destruct (clearCache_available (clearCache w).2 ∅ Hi) as [Hi2 Hl2].
  split; [done|]. split; [done|]. split; [congruence|]. split; [congruence|].
  unfold checkPasswordBreach. rewrite checkPassword_eq.
  destruct (checkWith_miss (hashPrefix p) (hashSuffix p) o (clearCache w).2)
    as (w3 & evs & _ & _ & _ & ->).
  - unfold freshEntry. by rewrite Hi, lookup_empty.
  - intros _. rewrite clearCache_eq, Hdb. simpl. done.
  - by rewrite Hallow.
Qed.

Lemma clear_invalidates_witness :
  (checkPasswordBreach "password" offlineOptions
     (clearBreachCache
        (freshWorld (Some {["5BAA6" := Entry "5BAA6"
                               ["1E4C9B93F3F0682250B6CF8331B7EE68FD8"] 0]})
                    1000 throttlingHost)).2).1
  = Return (Result false None None (Some true) None).
Proof.
  apply (clear_invalidates "password" offlineOptions
           (freshWorld (Some {["5BAA6" := Entry "5BAA6"
                                  ["1E4C9B93F3F0682250B6CF8331B7EE68FD8"] 0]})
                       1000 throttlingHost)
           {["5BAA6" := Entry "5BAA6" ["1E4C9B93F3F0682250B6CF8331B7EE68FD8"] 0]});
    reflexivity.
Defined.

(** X7. Round trip through the store. With the store open and its read
    answering, a record written by [setCacheEntry] replaces whatever was
    stored under its prefix and is what [getCacheEntry] returns for that
    prefix at any later time [t] within the TTL of its timestamp; neither
    call touches the records of other prefixes, and the read leaves the
    store as the write left it. *)
Theorem store_put_get (entry : CacheEntry) (t : Z) (w : World)
    (db : gmap string CacheEntry) :
  idb w = Some db → readError (host w) = false →
  t - timestamp entry ≤ CACHE_TTL_MS →
  let w1 := setClock t (setCacheEntry entry w).2 in
  ∃ w2, getCacheEntry (entryPrefix entry) w1 = (Return (Some entry), w2)
        ∧ idb w1 = Some (<[entryPrefix entry := entry]> db)
        ∧ idb w2 = idb w1
        ∧ ∀ k, k ≠ entryPrefix entry →
               idb w2 ≫= (λ d : gmap string CacheEntry, d !! k) = db !! k.
Proof.
  intros Hdb Hread Hage. cbv zeta.
  destruct (setCacheEntry_store entry w) as (_ & I1 & _ & H1). rewrite Hdb in I1.
  simpl in I1.
  rewrite (getCacheEntry_hit (entryPrefix entry) _ (<[entryPrefix entry := entry]> db) entry);
    [|simpl; done|simpl; by rewrite H1|by rewrite lookup_insert_eq|simpl; done].
  eexists. split; [done|]. simpl. rewrite I1. split; [done|]. split; [done|].
  intros k Hk. simpl. by rewrite lookup_insert_ne.
Qed.

Lemma store_put_get_witness :
  ∃ w2, getCacheEntry "5BAA6"
          (setClock CACHE_TTL_MS
             (setCacheEntry (Entry "5BAA6" ["AB"] 0)
                (freshWorld (Some ∅) 0 throttlingHost)).2)
        = (Return (Some (Entry "5BAA6" ["AB"] 0)), w2).
Proof.
  destruct (store_put_get (Entry "5BAA6" ["AB"] 0) CACHE_TTL_MS
              (freshWorld (Some ∅) 0 throttlingHost) ∅) as (w2 & E & _).
  - reflexivity.
  - reflexivity.
  - vm_compute. discriminate.
  - exists w2. exact E.
Defined.

(** X8. The fields of every result agree with each other: [count] is set,
    to 1, exactly when [breached] is [true]; [breached] and [cached] are
    set exactly when [checked] is [true]; [offline] is never [false], and
    when it is [true] the password was not checked. *)
Theorem result_fields_agree (p : string) (o : BreachCheckOptions) (w : World) :
  ∃ r w', checkPasswordBreach p o w = (Return r, w')
    ∧ (count r = Some 1 ↔ breached r = Some true)
    ∧ (count r = None ∨ count r = Some 1)
    ∧ (checked r = true ↔ is_Some (breached r))
    ∧ (checked r = true ↔ is_Some (cached r))
    ∧ (offline r = None ∨ offline r = Some true ∧ checked r = false).
Proof.
  unfold checkPasswordBreach. rewrite checkPassword_eq.
  destruct (checkWith_shape (hashPrefix p) (hashSuffix p) o w)
    as (r & w' & evs & m & -> & _ & _ & _ & Hwf & _).
  exists r, w'. split; [done|].
  destruct Hwf as [->|[->|(bucket & fromCache & ->)]]; simpl.
  - repeat split; try done; try (by intros [? ?]); by auto.
  - repeat split; try done; try (by intros [? ?]); by auto.
  - destruct (bool_decide _); repeat split; try done; try (by eexists); by auto.
Qed.

End Paths.

(** ** Pacing, backoff and the error that surfaces *)

Section Pacing.

Lemma sleep_time ms w :
  clock (sleep ms w).2 = clock w + Z.max 0 ms
  ∧ lastRequestTime (sleep ms w).2 = lastRequestTime w.
Proof. by destruct w. Qed.

Lemma rateLimit_time w :
  lastRequestTime (rateLimit w).2 = clock (rateLimit w).2
  ∧ lastRequestTime w + RATE_LIMIT_MS ≤ clock (rateLimit w).2
  ∧ clock w ≤ clock (rateLimit w).2
  ∧ (RATE_LIMIT_MS ≤ clock w - lastRequestTime w → clock (rateLimit w).2 = clock w).
Proof.
  destruct w as [lru last ready db clk tr hst].
  unfold rateLimit, bind, gets, modify, sleep, emit. simpl.
  destruct (Z.ltb_spec (clk - last) RATE_LIMIT_MS); simpl; lia.
Qed.

Lemma fetch_time url headers t w :
  lastRequestTime (fetch url headers t w).2 = lastRequestTime w
  ∧ clock w ≤ clock (fetch url headers t w).2.
Proof.
  destruct w as [lru last ready db clk tr hst]. unfold fetch. simpl.
  destruct (t <=? latency _); [simpl; lia|].
  destruct (outcome _); simpl; lia.
Qed.

(** Each iteration records the time of its request, at least
    [RATE_LIMIT_MS] after the time recorded before, and not in the future. *)
Lemma attemptFetch_time prefix t att w :
  lastRequestTime w + RATE_LIMIT_MS ≤ lastRequestTime (attemptFetch prefix t att w).2
  ∧ lastRequestTime (attemptFetch prefix t att w).2 ≤ clock (attemptFetch prefix t att w).2.
Proof.
  pose proof (rateLimit_time w) as (R1 & R2 & _).
  unfold attemptFetch, tryCatch, bind.
  destruct (rateLimit_spec w) as (w1 & evs1 & E1 & _). rewrite E1 in *. simpl in R1, R2.
  pose proof (fetch_time (HIBP_API_URL +:+ prefix) userAgent t w1) as (F1 & F2).
  destruct (fetch_spec (HIBP_API_URL +:+ prefix) userAgent t w1) as (w2 & _ & E2).
  rewrite E2 in *. simpl in F1, F2. cbv zeta.
  pose proof (sleep_time (backoff att) w2) as (S1 & S2).
  destruct (sleep_spec (backoff att) w2) as (w3 & E3 & _). rewrite E3 in *.
  simpl in S1, S2.
  assert (Hcaught : ∀ e,
    lastRequestTime w + RATE_LIMIT_MS
    ≤ lastRequestTime
        ((if String.eqb (name e) "AbortError" then ret (Caught e true)
          else (if att <? Z.of_nat MAX_RETRIES - 1 then sleep (backoff att)
                else ret tt) ;; ret (Caught e false)) w2).2
    ∧ lastRequestTime
        ((if String.eqb (name e) "AbortError" then ret (Caught e true)
          else (if att <? Z.of_nat MAX_RETRIES - 1 then sleep (backoff att)
                else ret tt) ;; ret (Caught e false)) w2).2
      ≤ clock
          ((if String.eqb (name e) "AbortError" then ret (Caught e true)
            else (if att <? Z.of_nat MAX_RETRIES - 1 then sleep (backoff att)
                  else ret tt) ;; ret (Caught e false)) w2).2).
  { intros e. destruct (String.eqb (name e) "AbortError"); [simpl; lia|].
    unfold bind. destruct (att <? Z.of_nat MAX_RETRIES - 1).
    - rewrite E3. simpl. lia.
    - simpl. lia. }
  destruct (t <=? latency _); [apply Hcaught|].
  destruct (outcome _) as [e|status body]; [apply Hcaught|].
  destruct (responseOk status); cbn [negb]; [simpl; lia|].
  destruct (status =? 429).
  - unfold bind. rewrite E3. simpl. lia.
  - unfold throw. apply Hcaught.
Qed.

Lemma fetchLoop_time remaining : ∀ att lastError prefix t w,
  lastRequestTime w
  + RATE_LIMIT_MS
    * Z.of_nat (length (fetches (added w (fetchLoop remaining att lastError prefix t w).2)))
  ≤ lastRequestTime (fetchLoop remaining att lastError prefix t w).2
  ∧ (lastRequestTime w ≤ clock w →
     lastRequestTime (fetchLoop remaining att lastError prefix t w).2
     ≤ clock (fetchLoop remaining att lastError prefix t w).2).
Proof.
  induction remaining as [|n IH]; intros att lastError prefix t w.
  - simpl. unfold added. rewrite drop_all. simpl. lia.
  - simpl. unfold bind.
    pose proof (attemptFetch_time prefix t att w) as (T1 & T2).
    destruct (attemptFetch_spec prefix t att w) as (a & w1 & evs1 & E1 & N1 & F1 & _).
    rewrite E1 in *. simpl in T1, T2.
    assert (Hone : length (fetches (added w w1)) = 1%nat).
    { rewrite (added_app _ _ evs1) by apply N1. by rewrite F1. }
    assert (Hnext : ∀ lastError',
      lastRequestTime w
      + RATE_LIMIT_MS
        * Z.of_nat (length (fetches (added w (fetchLoop n (att + 1) lastError' prefix t w1).2)))
      ≤ lastRequestTime (fetchLoop n (att + 1) lastError' prefix t w1).2
      ∧ lastRequestTime (fetchLoop n (att + 1) lastError' prefix t w1).2
        ≤ clock (fetchLoop n (att + 1) lastError' prefix t w1).2).
    { intros lastError'.
      destruct (IH (att + 1) lastError' prefix t w1) as [I1 I2].
      destruct (fetchLoop_spec n (att + 1) lastError' prefix t w1)
        as (r & w2 & evs2 & m & E2 & N2 & F2 & _).
      rewrite E2 in *. simpl in *.
      rewrite (added_app _ _ evs2) in I1 by apply N2.
      rewrite (added_app _ _ (evs1 ++ evs2))
        by apply (netFrame_trans _ _ _ _ _ N1 N2).
      rewrite fetches_app, length_app, F1. simpl length.
      split; [lia|by apply I2]. }
    destruct a as [bucket| |e [|]].
    + simpl. rewrite Hone. lia.
    + split; [apply Hnext|intros _; apply Hnext].
    + simpl. rewrite Hone. lia.
    + split; [apply Hnext|intros _; apply Hnext].
Qed.

(** X9. Pacing. [rateLimit] ends with [lastRequestTime] set to the
    current time, at least 1000 ms after its former value, and does not
    wait when that much time has already passed. Each attempt of the retry
    loop sends its request at the time it records, so a call of
    [fetchFromHIBP] that sends m requests moves [lastRequestTime] forward
    by at least 1000·m ms: successive requests, whatever their prefix, are
    at least one second apart. *)
Theorem requests_are_spaced (prefix : string) (t : Z) (w : World) :
  let wr := (rateLimit w).2 in
  let w' := (fetchFromHIBP prefix t w).2 in
  lastRequestTime wr = clock wr
  ∧ lastRequestTime w + 1000 ≤ clock wr
  ∧ (if 1000 <=? clock w - lastRequestTime w then clock wr = clock w
     else clock wr = lastRequestTime w + 1000)
  ∧ lastRequestTime w + 1000 * Z.of_nat (length (fetches (added w w')))
    ≤ lastRequestTime w'
  ∧ ∀ attempt,
      lastRequestTime w + 1000 ≤ lastRequestTime (attemptFetch prefix t attempt w).2.
Proof.
  cbv zeta. pose proof (rateLimit_time w) as (R1 & R2 & R3 & R4).
  split; [done|]. split; [done|]. split.
  { destruct (Z.leb_spec 1000 (clock w - lastRequestTime w)) as [Hidle|Hbusy];
      [by apply R4|].
    destruct w as [lru last ready db clk tr hst].
    unfold rateLimit, bind, gets, modify, sleep, emit. simpl in *.
    destruct (Z.ltb_spec (clk - last) RATE_LIMIT_MS) as [_|Hge];
      [simpl; unfold RATE_LIMIT_MS; lia|unfold RATE_LIMIT_MS in Hge; lia]. }
  split; [apply (fetchLoop_time MAX_RETRIES 0 None prefix t w)|].
  intros attempt. apply attemptFetch_time.
Qed.

End Pacing.

(** ** Exhausting the retries *)

Section Exhaustion.








End Exhaustion.

(** ** Parsing the response *)

Section Parsing.



















End Parsing.

(** ** The hook *)

Section HookFacts.

Lemma checkWith_options prefix suffix a t :
  checkWith prefix suffix (Options (Some a) (Some t))
  = checkWith prefix suffix
      (Options (if a then None else Some false) (if t =? 5000 then None else Some t)).
Proof.
  unfold checkWith. destruct a; simpl; destruct (Z.eqb_spec t 5000) as [->|]; done.
Qed.

(** X14. [check] of the hook on a non-empty password never throws (its
    [catch] is never taken, [error] stays [null]); it returns what
    [checkPasswordBreach] returns for the options with their defaults
    filled in (network allowed, 5000 ms), and with no option given that is
    what [checkPasswordBreach] returns without options; when it is over
    [loading] is [false], and [result] holds the returned value, unless
    [clear()] ran meanwhile, in which case the state stays cleared. *)
Theorem hook_check_resolves (options : Hook.UseBreachCheckOptions)
    (password : string) (clearedMeanwhile : bool) (s : Hook.State) (w : World) :
  password ≠ "" →
  let o := Options (Some (default true (Hook.allowNetwork options)))
                   (Some (default 5000 (Hook.timeout options))) in
  ∃ r w' s',
    Hook.check options password clearedMeanwhile (s, w) = (Return r, (s', w'))
    ∧ checkPasswordBreach password o w = (Return r, w')
    ∧ (Hook.allowNetwork options = None → Hook.timeout options = None →
       checkPasswordBreach password defaultOptions w = (Return r, w'))
    ∧ Hook.loading s' = false ∧ Hook.error s' = None
    ∧ (if clearedMeanwhile
       then s' = Hook.clear s
       else Hook.result s' = Some r ∧ Hook.breachedField s' = breached r
            ∧ Hook.countField s' = count r).
Proof.
  intros Hne. cbv zeta. unfold Hook.check.
  destruct (String.eqb_spec password "") as [->|_]; [done|].
  unfold checkPasswordBreach. rewrite !checkPassword_eq.
  destruct (checkWith_shape (hashPrefix password) (hashSuffix password)
              (Options (Some (default true (Hook.allowNetwork options)))
                       (Some (default 5000 (Hook.timeout options)))) w)
    as (r & w' & evs & m & E & _).
  rewrite E. exists r, w'. eexists. split; [reflexivity|]. split; [done|].
  split.
  { intros Ha Ht. rewrite Ha, Ht in E. simpl in E.
    by rewrite checkWith_options in E. }
  destruct clearedMeanwhile; simpl; done.
Qed.

Lemma hook_check_resolves_witness :
  ∃ r w' s',
    Hook.check (Hook.HookOptions None None None None) "password" false
      (Hook.initial, freshWorld (Some ∅) 0 servingHost) = (Return r, (s', w'))
    ∧ Hook.loading s' = false ∧ Hook.result s' = Some r.
Proof.
  destruct (hook_check_resolves (Hook.HookOptions None None None None) "password"
              false Hook.initial (freshWorld (Some ∅) 0 servingHost))
    as (r & w' & s' & E & _ & _ & Hl & _ & Hr & _).
  - discriminate.
  - exists r, w', s'. split; [exact E|]. split; [exact Hl|exact Hr].
Defined.

(** X15. [check] of the hook on the empty password does not reach the
    checker: it returns [{checked: false, breached: null}] and stores it
    as [result], the world is left as it was (no touch of the index, no
    open of the store, no request), and [loading], [error] and the
    cancellation flag keep their values; whereas [checkPasswordBreach]
    itself, on the empty password, does touch the index. *)
Theorem hook_check_empty (options : Hook.UseBreachCheckOptions)
    (clearedMeanwhile : bool) (s : Hook.State) (w : World) (o : BreachCheckOptions) :
  Hook.check options "" clearedMeanwhile (s, w)
  = (Return (Result false None None None None),
     ({| Hook.result := Some (Result false None None None None);
         Hook.loading := Hook.loading s; Hook.error := Hook.error s;
         Hook.cancelledRef := Hook.cancelledRef s |}, w))
  ∧ lruCache (checkPasswordBreach "" o w).2
    = (LRU.access "DA39A" (lruCache w)).1.
Proof.
  split; [done|]. unfold checkPasswordBreach. rewrite checkPassword_eq.
  destruct (checkWith_store (hashPrefix "") (hashSuffix "") o w) as [-> _].
  by vm_compute (hashPrefix "").
Qed.

End HookFacts.

(** ** What a call leaves alone *)

Section Frames.

Lemma prelude_last prefix w :
  lastRequestTime (lruAccess prefix (initDB w).2).2 = lastRequestTime w.
Proof.
  rewrite initDB_eq, lruAccess_eq. destruct w as [lru last ready db clk tr hst].
  simpl. destruct ready, db as [db|]; simpl;
    destruct (LRU.access prefix lru) as [c' [e|]]; simpl; reflexivity.
Qed.

Lemma getCacheEntry_last prefix w :
  lastRequestTime (getCacheEntry prefix w).2 = lastRequestTime w.
Proof.
  rewrite getCacheEntry_eq.
  destruct w as [lru last ready [db|] clk tr [rerr hf net]]; simpl; [|done].
  destruct rerr; simpl; [done|]. destruct (db !! prefix) as [e|]; simpl; [|done].
  by destruct (CACHE_TTL_MS <? clk - timestamp e).
Qed.

(** X16. The limiter is felt on the network path only. A call that sends
    no request (a cache hit, a cache-only or fetch-less miss, the error
    path) neither waits nor moves [lastRequestTime]: the clock and the
    time of the last request are what they were. *)
Theorem no_request_no_wait (p : string) (o : BreachCheckOptions) (w : World) :
  let w' := (checkPasswordBreach p o w).2 in
  fetches (added w w') = [] →
  clock w' = clock w ∧ lastRequestTime w' = lastRequestTime w.
Proof.
  cbv zeta. unfold checkPasswordBreach. rewrite checkPassword_eq, checkWith_eq.
  cbv zeta.
  destruct (prelude_spec (hashPrefix p) w) as (_ & C2 & _).
  pose proof (prelude_last (hashPrefix p) w) as L2.
  destruct (prelude_evolves (hashPrefix p) w) as (evs0 & V0 & F0 & _).
  set (w2 := (lruAccess (hashPrefix p) (initDB w).2).2) in *.
  destruct (getCacheEntry_store (hashPrefix p) w2) as (_ & C3 & _).
  pose proof (getCacheEntry_last (hashPrefix p) w2) as L3.
  destruct (getCacheEntry_evolves (hashPrefix p) w2) as (c & w3 & evs1 & E & V1 & F1 & _).
  rewrite E in *. simpl in C3, L3.
  assert (Hsame : clock w3 = clock w ∧ lastRequestTime w3 = lastRequestTime w)
    by (split; congruence).
  pose proof (evolves_trans _ _ _ _ _ V0 V1) as V01.
  destruct c as [[entry|]|e]; [done| |done].
  destruct (negb _ || negb _); [done|].
  destruct (fetchFromHIBP_spec (hashPrefix p) (default 5000 (timeout o)) w3)
    as (r & w4 & evs2 & m & -> & N2 & F2 & Hm & _).
  pose proof (evolves_trans _ _ _ _ _ V01 (netFrame_evolves _ _ _ N2)) as V012.
  assert (Hsent : ∀ evs3, fetches (((evs0 ++ evs1) ++ evs2) ++ evs3) ≠ []).
  { intros evs3. rewrite !fetches_app, F0, F1, F2. simpl.
    destruct m as [|m]; [lia|done]. }
  destruct r as [bucket|e].
  - destruct (setCacheEntry_evolves (Entry (hashPrefix p) bucket (clock w4)) w4)
      as (evs3 & V3 & _).
    pose proof (evolves_trans _ _ _ _ _ V012 V3) as Vall. simpl.
    rewrite (added_app _ _ _ (proj1 (proj2 Vall))). intros Hnone.
    by apply Hsent in Hnone.
  - simpl. rewrite (added_app _ _ _ (proj1 (proj2 V012))). intros Hnone.
    specialize (Hsent []). rewrite app_nil_r in Hsent. by apply Hsent in Hnone.
Qed.

Lemma no_request_no_wait_witness :
  clock (checkPasswordBreach "password" offlineOptions
           (freshWorld None 42 throttlingHost)).2 = 42.
Proof.
  apply (no_request_no_wait "password" offlineOptions (freshWorld None 42 throttlingHost)).
  vm_compute. reflexivity.
Defined.

(** X17. Every call touches the index once, for the prefix of its
    password, whatever its outcome (hit, miss, offline, fetch or error);
    in the store it can change only the record of that prefix and delete
    the record of the key the touch evicts: the records of all other
    prefixes are left as they were; and a missing store stays missing. *)
Theorem call_touches_only_its_prefix (p : string) (o : BreachCheckOptions)
    (w : World) :
  let w' := (checkPasswordBreach p o w).2 in
  let evicted := (LRU.access (hashPrefix p) (lruCache w)).2 in
  lruCache w' = (LRU.access (hashPrefix p) (lruCache w)).1
  ∧ match idb w with
    | None => idb w' = None
    | Some db =>
        ∃ db', idb w' = Some db'
          ∧ ∀ k, k ≠ hashPrefix p →
              db' !! k = if bool_decide (evicted = Some k) then None else db !! k
    end.
Proof.
  cbv zeta. unfold checkPasswordBreach. rewrite checkPassword_eq.
  destruct (checkWith_store (hashPrefix p) (hashSuffix p) o w) as [HL HS].
  split; [done|]. destruct (idb w) as [db|]; [|done].
  destruct HS as (db' & Hdb' & Hother). exists db'. split; [done|].
  intros k Hk. rewrite (Hother k Hk).
  destruct (LRU.access (hashPrefix p) (lruCache w)).2 as [e|].
  - destruct (decide (e = k)) as [->|Hne].
    + by rewrite bool_decide_true, lookup_delete_eq.
    + rewrite bool_decide_false by congruence. by rewrite lookup_delete_ne.
  - by rewrite bool_decide_false.
Qed.

End Frames.
